(** * The optics tutor chat: [askOpticsExpert] and the [AIChat] message store

    A shallow embedding of the conversational core of the lighting
    teaching tool: the service function [askOpticsExpert], which turns a
    query, a message history and a language into one request to the
    generative-AI backend and always hands a string back, and the part of
    the [AIChat] component that owns the message list (the welcome-message
    effect and [handleSend]). Around them: the split of a message into
    paragraphs when it is rendered, [handleSend] with its [await] as a
    suspension point, and the [App] page that owns the language.

    JavaScript values are modelled as follows.
    - Strings are [string]s holding the UTF-8 bytes of the source literals.
    - The number literal [0.7] is the binary64 value nearest to it.
    - Arrays and objects that the caller can still reach (the history array and
      the message objects in it) live in a heap of cells addressed by
      location; reading a location that does not hold the expected kind of
      cell raises a [TypeError], the way a property access on [undefined] does.
    - A function body is a computation over a [World] (heap, console, the
      requests sent so far) that completes normally or by a thrown error;
      [try ... catch] is [try_catch].
    - [await] is modelled on a call that settles: the backend either fulfils
      with a response or rejects with an error. *)

From Stdlib Require Import PrimFloat.
From stdpp Require Import base list strings.

Set Warnings "-inexact-float".
Set Default Proof Using "Type".

(** ** 1. Types *)

Inductive Language := en | zh.

Inductive Role := user | model.

Record ChatMessage := { role : Role; text : string }.

#[global] Instance Language_eq_dec : EqDecision Language.
Proof. solve_decision. Defined.

(** ** 2. Strings *)

Definition dquote : string := String (Ascii.ascii_of_byte Byte.x22) EmptyString.
Definition newline : string := String (Ascii.ascii_of_byte Byte.x0a) EmptyString.

(** [String.prototype.includes]: some suffix of [s] starts with [sub]. *)
Fixpoint includes (s sub : string) : bool :=
  String.prefix sub s ||
  match s with
  | EmptyString => false
  | String _ s' => includes s' sub
  end.

(** The property [includes] decides. *)
Definition contains (s sub : string) : Prop :=
  ∃ pre post, s = pre +:+ sub +:+ post.

(** JavaScript truthiness of a [string | undefined] value, as used by [||]. *)
Definition truthy (v : option string) : bool :=
  match v with
  | Some (String _ _) => true
  | _ => false
  end.

(** [v || d] for [v : string | undefined] and a string [d]. *)
Definition or_else (v : option string) (d : string) : string :=
  if truthy v then default d v else d.

(** ** 3. The request sent to the backend *)

Record Part := { part_text : string }.

Record Content := { content_role : Role; parts : list Part }.

Record GenerateContentConfig := {
  config_systemInstruction : string;
  temperature : float
}.

Record GenerateContentParameters := {
  request_model : string;
  request_contents : list Content;
  config : GenerateContentConfig
}.

(** What the awaited call settles to: a response whose [text] is a string or
    [undefined], or a rejection with an error. *)
Record GenerateContentResponse := { response_text : option string }.

Inductive Error :=
| TypeError (what : string)
| ApiError (message : string).

Inductive Settled :=
| Fulfilled (response : GenerateContentResponse)
| Rejected (error : Error).

(** The backend as [askOpticsExpert] sees it: given the requests already sent
    and the current one, how the call settles. *)
Definition Backend := list GenerateContentParameters → GenerateContentParameters → Settled.

(** ** 4. Prompt construction (lines 49-78 of the service) *)

Definition model_id : string := "gemini-2.5-flash".

Definition langInstruction (language : Language) : string :=
  match language with
  | zh => "Reply in Simplified Chinese. Explain concepts using standard Machine Vision terminology in Chinese."
  | en => "Reply in English."
  end.

(** The template literal, line by line; the first line is the line break right
    after the opening backtick and the last the indentation before the closing
    one. *)
Definition systemInstruction (language : Language) : string :=
  String.concat newline [
    "";
    "      You are an expert Professor of Machine Vision and Optics. ";
    "      Your goal is to explain lighting techniques to students simply and clearly.";
    "      ";
    "      Current Topic: Bright Field vs. Dark Field Lighting.";
    "      ";
    "      Rules:";
    "      1. " +:+ langInstruction language;
    "      2. Keep answers concise (under 150 words) unless asked for detail.";
    "      3. Use analogies (e.g., " +:+ dquote +:+ "like a mirror" +:+ dquote +:+ " or "
      +:+ dquote +:+ "like driving in fog" +:+ dquote +:+ ").";
    "      4. Focus on the physics of reflection (Angle of Incidence = Angle of Reflection).";
    "      5. Formatting: Use bullet points for clarity.";
    "    "
  ].

(** [msg => ({ role: msg.role, parts: [{ text: msg.text }] })] *)
Definition toContent (msg : ChatMessage) : Content :=
  {| content_role := role msg; parts := [ {| part_text := text msg |} ] |}.

(** [{ role: 'user', parts: [{ text: query }] }] *)
Definition queryContent (query : string) : Content :=
  {| content_role := user; parts := [ {| part_text := query |} ] |}.

Definition noAnswerText (language : Language) : string :=
  match language with
  | zh => "抱歉，我现在无法回答光学问题。"
  | en => "I couldn't generate a response regarding optics at the moment."
  end.

Definition errorText (language : Language) : string :=
  match language with
  | zh => "连接 AI 导师失败，请检查 API 密钥。"
  | en => "Error connecting to the Optics AI Tutor. Please check your API key."
  end.

(** ** 5. Worlds and computations *)

(** Heap cells: an array of references, or a message object. *)
Definition loc := nat.

Inductive cell :=
| Arr (elems : list loc)
| Obj (msg : ChatMessage).

(** One [console.error(label, error)] record. *)
Record LogRecord := { log_label : string; log_error : Error }.

Record World := {
  heap : list cell;
  console : list LogRecord;
  sent : list GenerateContentParameters
}.

Inductive Completion (A : Type) :=
| Normal (a : A)
| Throw (e : Error).
Arguments Normal {A} a.
Arguments Throw {A} e.

Definition M (A : Type) : Type := World → Completion A * World.

#[global] Instance M_ret : MRet M := λ A a w, (Normal a, w).

#[global] Instance M_bind : MBind M := λ A B k c w,
  match c w with
  | (Normal a, w') => k a w'
  | (Throw e, w') => (Throw e, w')
  end.

(** [try { body } catch (error) { handler }] *)
Definition try_catch {A} (body : M A) (handler : Error → M A) : M A := λ w,
  match body w with
  | (Normal a, w') => (Normal a, w')
  | (Throw e, w') => handler e w'
  end.

(** Heap access. *)
Definition readArr (l : loc) : M (list loc) := λ w,
  match heap w !! l with
  | Some (Arr elems) => (Normal elems, w)
  | _ => (Throw (TypeError "not an array"), w)
  end.

Definition readObj (l : loc) : M ChatMessage := λ w,
  match heap w !! l with
  | Some (Obj msg) => (Normal msg, w)
  | _ => (Throw (TypeError "not a message"), w)
  end.

Definition withCell (c : cell) (w : World) : World :=
  {| heap := heap w ++ [c]; console := console w; sent := sent w |}.

Definition withLog (r : LogRecord) (w : World) : World :=
  {| heap := heap w; console := console w ++ [r]; sent := sent w |}.

Definition withSent (request : GenerateContentParameters) (w : World) : World :=
  {| heap := heap w; console := console w; sent := sent w ++ [request] |}.

(** A fresh object or array; its reference is the next free location. *)
Definition alloc (c : cell) : M loc := λ w,
  (Normal (length (heap w)), withCell c w).

(** [console.error(label, error)] *)
Definition console_error (label : string) (error : Error) : M () := λ w,
  (Normal (), withLog {| log_label := label; log_error := error |} w).

(** [await ai.models.generateContent(request)]: the request goes out, and the
    call settles as the backend decides. *)
Definition generateContent (backend : Backend) (request : GenerateContentParameters)
  : M GenerateContentResponse := λ w,
  match backend (sent w) request with
  | Fulfilled response => (Normal response, withSent request w)
  | Rejected error => (Throw error, withSent request w)
  end.

(** The value of an array of messages in a heap, when it is one. *)
Definition lookupArr (h : list cell) (l : loc) : option (list loc) :=
  match h !! l with
  | Some (Arr elems) => Some elems
  | _ => None
  end.

Definition lookupObj (h : list cell) (l : loc) : option ChatMessage :=
  match h !! l with
  | Some (Obj msg) => Some msg
  | _ => None
  end.

Definition deref (h : list cell) (l : loc) : option (list ChatMessage) :=
  elems ← lookupArr h l; mapM (lookupObj h) elems.

(** ** 6. The service: [askOpticsExpert] *)

(** [history.map(msg => ({ role: msg.role, parts: [{ text: msg.text }] }))] *)
Definition mapHistory (history : loc) : M (list Content) :=
  elems ← readArr history;
  mapM (λ p, msg ← readObj p; mret (toContent msg)) elems.

Definition askOpticsExpert (backend : Backend)
    (query : string) (history : loc) (language : Language) : M string :=
  try_catch
    (mapped ← mapHistory history;
     let contents := mapped ++ [queryContent query] in
     response ← generateContent backend
       {| request_model := model_id;
          request_contents := contents;
          config := {| config_systemInstruction := systemInstruction language;
                       temperature := 0.7%float |} |};
     mret (or_else (response_text response) (noAnswerText language)))
    (λ error,
       console_error "Gemini API Error:" error;;
       mret (errorText language)).

(** ** 7. The component: [AIChat] *)

Record AIChatProps := { language : Language }.

(** The hooks of one mounted component: three [useState] cells and the
    [initialized] ref. [messages] is a reference to the current array. *)
Record AIChatState := {
  messages : loc;
  input : string;
  isLoading : bool;
  initialized : bool
}.

Definition setMessages (a : loc) (st : AIChatState) : AIChatState :=
  {| messages := a; input := input st; isLoading := isLoading st;
     initialized := initialized st |}.

Definition setInput (s : string) (st : AIChatState) : AIChatState :=
  {| messages := messages st; input := s; isLoading := isLoading st;
     initialized := initialized st |}.

Definition setIsLoading (b : bool) (st : AIChatState) : AIChatState :=
  {| messages := messages st; input := input st; isLoading := b;
     initialized := initialized st |}.

Definition setInitialized (b : bool) (st : AIChatState) : AIChatState :=
  {| messages := messages st; input := input st; isLoading := isLoading st;
     initialized := b |}.

Definition isZh (language : Language) : bool := bool_decide (language = zh).

Definition welcomeText (isZh : bool) : string :=
  if isZh
  then "你好！我是你的光学助教。关于打光角度、明暗视野或检测难题，尽管问我。"
  else "Hi! I'm your Optics Tutor. Ask me anything about lighting angles, reflection, or detection techniques.".

Definition welcomeMessage (isZh : bool) : ChatMessage :=
  {| role := model; text := welcomeText isZh |}.

(** First render: [useState([])], [useState('')], [useState(false)],
    [useRef(false)]. *)
Definition mount : M AIChatState :=
  a ← alloc (Arr []);
  mret {| messages := a; input := ""; isLoading := false; initialized := false |}.

(** Lines 411-412, the body of the guard: [setMessages([{ role: 'model', text:
    welcomeText }])] and [initialized.current = true]. *)
Definition reset (isZh : bool) (st : AIChatState) : M AIChatState :=
  o ← alloc (Obj (welcomeMessage isZh));
  a ← alloc (Arr [o]);
  mret (setInitialized true (setMessages a st)).

(** The effect of lines 405-414, run on mount and whenever [isZh] changes.
    Nothing else seeds the store: this is its reset. *)
Definition welcomeEffect (isZh : bool) (st : AIChatState) : M AIChatState :=
  if negb (initialized st) then reset isZh st else mret st.

(** [setMessages(prev => [...prev, msg])] for a message object [msg]. *)
Definition pushMessage (msg : loc) (st : AIChatState) : M AIChatState :=
  prev ← readArr (messages st);
  a ← alloc (Arr (prev ++ [msg]));
  mret (setMessages a st).

(** Creating a message object and appending it: the store's append. *)
Definition append (msg : ChatMessage) (st : AIChatState) : M AIChatState :=
  o ← alloc (Obj msg);
  pushMessage o st.

Fixpoint appendAll (msgs : list ChatMessage) (st : AIChatState) : M AIChatState :=
  match msgs with
  | [] => mret st
  | msg :: rest => st' ← append msg st; appendAll rest st'
  end.

(** The store's snapshot: the messages the current array holds. *)
Definition snapshot (st : AIChatState) (w : World) : option (list ChatMessage) :=
  deref (heap w) (messages st).

(** What happens to the store of a mounted component: the effect runs (once
    after the mount, and again whenever [isZh] has changed), or a message is
    appended. *)
Inductive StoreOp :=
| EffectRuns (isZh : bool)
| Appends (msg : ChatMessage).

Definition store_step (op : StoreOp) (st : AIChatState) : M AIChatState :=
  match op with
  | EffectRuns isZh => welcomeEffect isZh st
  | Appends msg => append msg st
  end.

Fixpoint store_run (ops : list StoreOp) (st : AIChatState) : M AIChatState :=
  match ops with
  | [] => mret st
  | op :: rest => st' ← store_step op st; store_run rest st'
  end.

(** The messages appended by [ops], in the order of the calls. *)
Fixpoint appended (ops : list StoreOp) : list ChatMessage :=
  match ops with
  | [] => []
  | Appends msg :: rest => msg :: appended rest
  | EffectRuns _ :: rest => appended rest
  end.

Section Component.

(** [String.prototype.trim], and the backend behind the client. *)
Variable trim : string → string.
Variable backend : Backend.

(** Lines 424-436. The history passed to [askOpticsExpert] is the [messages]
    of the render that created the handler, and the query its [input]. *)
Definition handleSend (language : Language) (st : AIChatState) : M AIChatState :=
  if bool_decide (trim (input st) = "") || isLoading st then mret st
  else
    let userMsg := {| role := user; text := input st |} in
    st1 ← append userMsg st;
    let st2 := setIsLoading true (setInput "" st1) in
    answer ← askOpticsExpert backend (input st) (messages st) language;
    st3 ← append {| role := model; text := answer |} st2;
    mret (setIsLoading false st3).

Record AIChat := { props : AIChatProps; state : AIChatState }.

(** Mounting renders once and runs the effect. *)
Definition mountAIChat (language : Language) : M AIChat :=
  st ← mount;
  st' ← welcomeEffect (isZh language) st;
  mret {| props := {| language := language |}; state := st' |}.

Inductive Event :=
| LanguageChanged (language : Language)
| InputChanged (value : string)
| SendClicked.

(** One event on a mounted component. A new [language] prop re-renders, and
    the effect runs again when its dependency [isZh] differs. *)
Definition step (ev : Event) (c : AIChat) : M AIChat :=
  match ev with
  | LanguageChanged l =>
      st ← (if bool_decide (isZh l = isZh (language (props c)))
            then mret (state c)
            else welcomeEffect (isZh l) (state c));
      mret {| props := {| language := l |}; state := st |}
  | InputChanged value =>
      mret {| props := props c; state := setInput value (state c) |}
  | SendClicked =>
      st ← handleSend (language (props c)) (state c);
      mret {| props := props c; state := st |}
  end.

Fixpoint run (evs : list Event) (c : AIChat) : M AIChat :=
  match evs with
  | [] => mret c
  | ev :: rest => c' ← step ev c; run rest c'
  end.

End Component.

(** ** 8. Sample worlds *)

Definition emptyWorld : World := {| heap := []; console := []; sent := [] |}.

(** A heap holding the history [[ (model, "Hi! ...") ]] at location 1. *)
Definition sampleWorld : World :=
  {| heap := [ Obj {| role := model; text := "Hi! ..." |}; Arr [0] ];
     console := [];
     sent := [] |}.

(** The same history at location 3 of a world with another array, an earlier
    request and a console record. *)
Definition laterWorld : World :=
  {| heap := [ Arr []; Obj {| role := user; text := "unrelated" |};
               Obj {| role := model; text := "Hi! ..." |}; Arr [2] ];
     console := [ {| log_label := "Gemini API Error:";
                     log_error := ApiError "quota" |} ];
     sent := [ {| request_model := "gemini-2.5-flash";
                  request_contents := [];
                  config := {| config_systemInstruction := "";
                               temperature := 0.7%float |} |} ] |}.

Definition sampleHistory : list ChatMessage :=
  [ {| role := model; text := "Hi! ..." |} ].

Definition echoBackend : Backend := λ _ request,
  Fulfilled {| response_text :=
    Some (String.concat newline
            (flat_map (λ c, map part_text (parts c)) (request_contents request))) |}.

Definition failingBackend : Backend := λ _ _, Rejected (ApiError "API key not valid").

Definition silentBackend : Backend := λ _ _, Fulfilled {| response_text := None |}.

Definition emptyBackend : Backend := λ _ _, Fulfilled {| response_text := Some "" |}.

Definition fixedBackend (answer : string) : Backend := λ _ _,
  Fulfilled {| response_text := Some answer |}.

(** ** 9. The vocabulary of the specification *)

(** A turn of the backend's conversation: a role and a text. *)
Definition turn (r : Role) (t : string) : Content :=
  {| content_role := r; parts := [ {| part_text := t |} ] |}.

(** The turn sequence the specification asks for: the history in its order,
    every role kept, then one USER turn holding the query. *)
Definition spec_turns (history : list ChatMessage) (query : string) : list Content :=
  map (λ msg, turn (role msg) (text msg)) history ++ [turn user query].

(** The request the specification asks for. *)
Definition spec_request (query : string) (history : list ChatMessage)
    (language : Language) : GenerateContentParameters :=
  {| request_model := "gemini-2.5-flash";
     request_contents := spec_turns history query;
     config := {| config_systemInstruction := systemInstruction language;
                  temperature := 0.7%float |} |}.

(** One exchange in the store: the user's query, then the answer. *)
Definition exchange (qa : string * string) : list ChatMessage :=
  [ {| role := user; text := qa.1 |}; {| role := model; text := qa.2 |} ].

(** A mounted component whose store is the welcome message of the first
    language followed by whole exchanges, with [initialized] set. *)
Definition seeded (isZh0 : bool) (c : AIChat) (w : World) : Prop :=
  initialized (state c) = true
  ∧ ∃ exchanges,
      snapshot (state c) w = Some (welcomeMessage isZh0 :: flat_map exchange exchanges).

(** The diagnostic record of the [catch] block. *)
Definition errorRecord (error : Error) : LogRecord :=
  {| log_label := "Gemini API Error:"; log_error := error |}.

(** ** 10. Rendering a message: [msg.text.split('\n')] (lines 455-457) *)

Definition is_newline (c : Ascii.ascii) : bool :=
  Ascii.eqb c (Ascii.ascii_of_byte Byte.x0a).

(** [String.prototype.split] with the separator ['\n']: the pieces between
    the line breaks, one more than there are line breaks. *)
Fixpoint split_newline (s : string) : list string :=
  match s with
  | EmptyString => [ "" ]
  | String c s' =>
      if is_newline c then "" :: split_newline s'
      else match split_newline s' with
           | [] => [ String c "" ]
           | line :: rest => String c line :: rest
           end
  end.

(** The paragraphs of one chat bubble. *)
Definition paragraphs (msg : ChatMessage) : list string :=
  split_newline (text msg).

Fixpoint has_newline (s : string) : bool :=
  match s with
  | EmptyString => false
  | String c s' => is_newline c || has_newline s'
  end.

(** ** 11. [askOpticsExpert] and [handleSend] around the [await]

    The same two functions with the suspension point made explicit: what runs
    when the handler is called, up to the [await], and what runs when the
    awaited call has settled. *)

(** What the promise of [askOpticsExpert] waits for: the backend, for a request
    sent after the [earlier] ones, or nothing any more when the [catch] block
    has already run. *)
Inductive Pending :=
| Awaiting (earlier : list GenerateContentParameters)
           (request : GenerateContentParameters) (language : Language)
| Resolved (answer : string).

(** [ai.models.generateContent(request)] before it is awaited: the request
    goes out. *)
Definition generateContent_call (request : GenerateContentParameters)
    (language : Language) : M Pending := λ w,
  (Normal (Awaiting (sent w) request language), withSent request w).

(** Lines 48-87 up to the [await]. *)
Definition askOpticsExpert_begin
    (query : string) (history : loc) (language : Language) : M Pending :=
  try_catch
    (mapped ← mapHistory history;
     let contents := mapped ++ [queryContent query] in
     generateContent_call
       {| request_model := model_id;
          request_contents := contents;
          config := {| config_systemInstruction := systemInstruction language;
                       temperature := 0.7%float |} |}
       language)
    (λ error,
       console_error "Gemini API Error:" error;;
       mret (Resolved (errorText language))).

(** Lines 89-96, once the call has settled. *)
Definition askOpticsExpert_settle (backend : Backend) (p : Pending) : M string :=
  match p with
  | Resolved answer => mret answer
  | Awaiting earlier request language =>
      match backend earlier request with
      | Fulfilled response =>
          mret (or_else (response_text response) (noAnswerText language))
      | Rejected error =>
          console_error "Gemini API Error:" error;;
          mret (errorText language)
      end
  end.

Section Page.

Variable trim : string → string.
Variable backend : Backend.

(** Lines 425-432 up to the [await]. The handler belongs to a render: [input],
    [isLoading], [messages] and [language] are the constants of that render
    ([closure]), while the three setters act on the hooks as they are now
    ([st]); [setMessages] is given a function of the latest array. *)
Definition handleSend_begin (closure : AIChat) (st : AIChatState)
  : M (AIChatState * option Pending) :=
  if bool_decide (trim (input (state closure)) = "") || isLoading (state closure)
  then mret (st, None)
  else
    let userMsg := {| role := user; text := input (state closure) |} in
    st1 ← append userMsg st;
    let st2 := setIsLoading true (setInput "" st1) in
    p ← askOpticsExpert_begin (input (state closure)) (messages (state closure))
          (language (props closure));
    mret (st2, Some p).

(** Lines 432-435 after the [await]; the updates apply to the hooks as they
    are by then. *)
Definition handleSend_resume (p : Pending) (st : AIChatState) : M AIChatState :=
  answer ← askOpticsExpert_settle backend p;
  st3 ← append {| role := model; text := answer |} st;
  mret (setIsLoading false st3).

(** A mounted component: its props and hooks as they are now ([chat]), as they
    were at the last render, which is what the handlers on the page read
    ([rendered]), and the calls it is waiting for, oldest first. *)
Record AsyncChat := { chat : AIChat; rendered : AIChat; flights : list Pending }.

Inductive AsyncEvent :=
| UserEvent (ev : Event)
| Rendered
| BackendSettled
| BackendSettledLater (i : nat).

(** The awaited call [p] settles. *)
Definition settle (p : Pending) (rest : list Pending) (a : AsyncChat) : M AsyncChat :=
  st ← handleSend_resume p (state (chat a));
  mret {| chat := {| props := props (chat a); state := st |};
          rendered := rendered a;
          flights := rest |}.

(** One event:
    - a click on send runs the handler of the last render;
    - typing sets the input;
    - a new [language] arrives with a render, after which the effect runs;
    - the component re-renders with its current hooks;
    - the oldest awaited call settles, or the one after [i] older ones. *)
Definition step_async (ev : AsyncEvent) (a : AsyncChat) : M AsyncChat :=
  match ev with
  | UserEvent SendClicked =>
      r ← handleSend_begin (rendered a) (state (chat a));
      mret {| chat := {| props := props (chat a); state := r.1 |};
              rendered := rendered a;
              flights := flights a ++ option_list r.2 |}
  | UserEvent (InputChanged value) =>
      c ← step trim backend (InputChanged value) (chat a);
      mret {| chat := c; rendered := rendered a; flights := flights a |}
  | UserEvent (LanguageChanged l) =>
      c ← step trim backend (LanguageChanged l) (chat a);
      mret {| chat := c;
              rendered := {| props := {| language := l |}; state := state (chat a) |};
              flights := flights a |}
  | Rendered =>
      mret {| chat := chat a; rendered := chat a; flights := flights a |}
  | BackendSettled =>
      match flights a with
      | [] => mret a
      | p :: rest => settle p rest a
      end
  | BackendSettledLater i =>
      match flights a !! S i with
      | None => mret a
      | Some p => settle p (delete (S i) (flights a)) a
      end
  end.

Fixpoint run_async (evs : list AsyncEvent) (a : AsyncChat) : M AsyncChat :=
  match evs with
  | [] => mret a
  | ev :: rest => a' ← step_async ev a; run_async rest a'
  end.

(** Mounting: the first render, with an empty store, then the effect. The
    handlers of that first render stay on the page until the next render. *)
Definition mountAsync (language : Language) : M AsyncChat :=
  st ← mount;
  st' ← welcomeEffect (isZh language) st;
  mret {| chat := {| props := {| language := language |}; state := st' |};
          rendered := {| props := {| language := language |}; state := st |};
          flights := [] |}.

(** A session in which the component re-renders after the mount and after
    every event, so that every handler is the one of the current hooks. *)
Definition rendering_after_each (evs : list AsyncEvent) : list AsyncEvent :=
  Rendered :: flat_map (λ ev, [ev; Rendered]) evs.

(** The [language] prop after the events [evs], from [l0]. *)
Fixpoint last_language (l0 : Language) (evs : list AsyncEvent) : Language :=
  match evs with
  | [] => l0
  | UserEvent (LanguageChanged l) :: rest => last_language l rest
  | _ :: rest => last_language l0 rest
  end.

(** ** 12. The page: [App] (lines 498-508, 684) *)

Inductive LightingMode := BRIGHT_FIELD | DARK_FIELD.

(** The two [useState] cells of [App] and the [AIChat] it renders with its
    [language]. *)
Record App := {
  app_mode : LightingMode;
  app_language : Language;
  app_chat : AIChat
}.

(** [prev => prev === 'en' ? 'zh' : 'en'] *)
Definition toggleLanguage (prev : Language) : Language :=
  if bool_decide (prev = en) then zh else en.

Inductive AppEvent :=
| LanguageClicked
| ModeClicked (newMode : LightingMode)
| ChatEvent (value : option string).

(** First render: [useState(LightingMode.BRIGHT_FIELD)], [useState('zh')], and
    the chat mounted with that language. *)
Definition mountApp : M App :=
  c ← mountAIChat zh;
  mret {| app_mode := BRIGHT_FIELD; app_language := zh; app_chat := c |}.

(** The language button, a mode button, and the two things a user does in the
    chat: typing ([Some value]) and sending ([None]). *)
Definition stepApp (ev : AppEvent) (a : App) : M App :=
  match ev with
  | LanguageClicked =>
      let l := toggleLanguage (app_language a) in
      c ← step trim backend (LanguageChanged l) (app_chat a);
      mret {| app_mode := app_mode a; app_language := l; app_chat := c |}
  | ModeClicked newMode =>
      mret {| app_mode := newMode; app_language := app_language a;
              app_chat := app_chat a |}
  | ChatEvent (Some value) =>
      c ← step trim backend (InputChanged value) (app_chat a);
      mret {| app_mode := app_mode a; app_language := app_language a; app_chat := c |}
  | ChatEvent None =>
      c ← step trim backend SendClicked (app_chat a);
      mret {| app_mode := app_mode a; app_language := app_language a; app_chat := c |}
  end.

Fixpoint runApp (evs : list AppEvent) (a : App) : M App :=
  match evs with
  | [] => mret a
  | ev :: rest => a' ← stepApp ev a; runApp rest a'
  end.

End Page.

(** ** 13. Conversations *)

(** One completed send: the language of the page at the click, the input as
    typed, the answer. *)
Record Sent := { sent_language : Language; sent_query : string; sent_answer : string }.

Definition sent_exchange (e : Sent) : list ChatMessage :=
  exchange (sent_query e, sent_answer e).

(** The store after the sends [log] on top of the messages [base]. *)
Definition conversation (base : list ChatMessage) (log : list Sent) : list ChatMessage :=
  base ++ flat_map sent_exchange log.

(** The requests of the sends [log], each one carrying the store as it was at
    its click. *)
Fixpoint requests_from (base : list ChatMessage) (log : list Sent)
  : list GenerateContentParameters :=
  match log with
  | [] => []
  | e :: rest =>
      spec_request (sent_query e) base (sent_language e)
      :: requests_from (base ++ sent_exchange e) rest
  end.

(** The string a settled call is turned into, and what it leaves on the
    console (lines 89-95). *)
Definition answer_of (language : Language) (s : Settled) : string :=
  match s with
  | Fulfilled response => or_else (response_text response) (noAnswerText language)
  | Rejected _ => errorText language
  end.

Definition log_of (s : Settled) : list LogRecord :=
  match s with
  | Fulfilled _ => []
  | Rejected error => [errorRecord error]
  end.

(** A mounted, idle component after the sends [log]: the store is the welcome
    message followed by their exchanges, the requests sent since [before] are
    theirs, and every one of them had a non-blank input and a non-empty
    answer. *)
Definition chatting (trim : string → string)
    (before : list GenerateContentParameters) (isZh0 : bool) (log : list Sent)
    (c : AIChat) (w : World) : Prop :=
  initialized (state c) = true
  ∧ isLoading (state c) = false
  ∧ snapshot (state c) w = Some (conversation [welcomeMessage isZh0] log)
  ∧ sent w = before ++ requests_from [welcomeMessage isZh0] log
  ∧ Forall (λ e, trim (sent_query e) ≠ "" ∧ sent_answer e ≠ "") log.

(** An awaited promise that will resolve to a non-empty string. *)
Definition pending_ok (p : Pending) : Prop :=
  match p with
  | Awaiting _ _ _ => True
  | Resolved answer => answer ≠ ""
  end.

(** A mounted component whose handlers are those of its current hooks, and
    which is either idle or waiting for exactly one call, with the loading
    flag saying which. *)
Definition one_flight (a : AsyncChat) (w : World) : Prop :=
  initialized (state (chat a)) = true
  ∧ rendered a = chat a
  ∧ (∃ msgs, snapshot (state (chat a)) w = Some msgs)
  ∧ Forall pending_ok (flights a)
  ∧ ((flights a = [] ∧ isLoading (state (chat a)) = false)
     ∨ (∃ p, flights a = [p] ∧ isLoading (state (chat a)) = true)).

(** How many messages of a role a list holds. *)
Fixpoint count_role (r : Role) (msgs : list ChatMessage) : nat :=
  match msgs with
  | [] => 0
  | msg :: rest =>
      match role msg, r with
      | user, user | model, model => S (count_role r rest)
      | _, _ => count_role r rest
      end
  end.

(** No blank USER message and no empty MODEL message. *)
Definition sound_message (trim : string → string) (msg : ChatMessage) : Prop :=
  match role msg with
  | user => trim (text msg) ≠ ""
  | model => text msg ≠ ""
  end.

(** A mounted component at any point of a session that sent [n0] requests
    before the mount: every USER message has its request and either its
    answer or a call in flight. *)
Definition in_session (trim : string → string) (isZh0 : bool) (n0 : nat)
    (a : AsyncChat) (w : World) : Prop :=
  initialized (state (chat a)) = true
  ∧ Forall pending_ok (flights a)
  ∧ (∃ old, deref (heap w) (messages (state (rendered a))) = Some old)
  ∧ ∃ tail,
      snapshot (state (chat a)) w = Some (welcomeMessage isZh0 :: tail)
      ∧ Forall (sound_message trim) tail
      ∧ count_role user tail = count_role model tail + length (flights a)
      ∧ length (sent w) = n0 + count_role user tail.

(** How often the language button was clicked. *)
Fixpoint language_clicks (evs : list AppEvent) : nat :=
  match evs with
  | [] => 0
  | LanguageClicked :: rest => S (language_clicks rest)
  | _ :: rest => language_clicks rest
  end.

(** * Properties *)

(** ** Strings *)

Lemma append_empty_l (s : string) : "" +:+ s = s.
Proof. reflexivity. Qed.

Lemma append_String (a : Ascii.ascii) (p s : string) :
  String a p +:+ s = String a (p +:+ s).
Proof. reflexivity. Qed.

Lemma prefix_spec (p s : string) :
  String.prefix p s = true ↔ ∃ post, s = p +:+ post.
Proof.
  revert s. induction p as [|a p IH]; intros s.
  - destruct s; (split; [intros _; by eexists | done]).
  - destruct s as [|b s]; simpl.
    + split; [done | by intros [post ?]].
    + destruct (Ascii.ascii_dec a b) as [->|Hne].
      * rewrite IH. split; intros [post Hpost]; exists post;
          rewrite append_String in *; congruence.
      * split; [done | intros [post Hpost]; rewrite append_String in Hpost; congruence].
Qed.

Lemma includes_empty (sub : string) :
  includes "" sub = String.prefix sub "" || false.
Proof. reflexivity. Qed.

Lemma includes_String (a : Ascii.ascii) (s sub : string) :
  includes (String a s) sub = String.prefix sub (String a s) || includes s sub.
Proof. reflexivity. Qed.

Lemma includes_spec (s sub : string) :
  includes s sub = true ↔ contains s sub.
Proof.
  split.
  - induction s as [|a s IH].
    + rewrite includes_empty, orb_true_iff. intros [Hp | ?]; [|done].
      apply prefix_spec in Hp as [post Hp]. by exists "", post.
    + rewrite includes_String, orb_true_iff. intros [Hp | Hin].
      * apply prefix_spec in Hp as [post Hp]. by exists "", post.
      * destruct (IH Hin) as (pre & post & ->). by exists (String a pre), post.
  - intros (pre & post & ->).
    induction pre as [|a pre IH].
    + rewrite append_empty_l.
      assert (String.prefix sub (sub +:+ post) = true) as Hp
        by (apply prefix_spec; eauto).
      destruct (sub +:+ post);
        [rewrite includes_empty | rewrite includes_String]; by rewrite Hp.
    + rewrite append_String, includes_String, orb_true_iff. by right.
Qed.

Lemma not_includes_spec (s sub : string) :
  includes s sub = false → ¬ contains s sub.
Proof. intros Hf Hc. apply includes_spec in Hc. congruence. Qed.

Lemma or_else_nonempty (v : option string) (d : string) :
  d ≠ "" → or_else v d ≠ "".
Proof. by destruct v as [[|a s]|]. Qed.

Lemma or_else_falsy (v : option string) (d : string) :
  truthy v = false → or_else v d = d.
Proof. by destruct v as [[|a s]|]. Qed.

Lemma or_else_truthy (s d : string) :
  s ≠ "" → or_else (Some s) d = s.
Proof. by destruct s. Qed.

Lemma errorText_nonempty language : errorText language ≠ "".
Proof. by destruct language. Qed.

Lemma noAnswerText_nonempty language : noAnswerText language ≠ "".
Proof. by destruct language. Qed.

(** ** Heaps only grow *)

Lemma lookupObj_app (h h' : list cell) (l : loc) (msg : ChatMessage) :
  lookupObj h l = Some msg → lookupObj (h ++ h') l = Some msg.
Proof.
  unfold lookupObj. destruct (h !! l) as [c|] eqn:Hl; [|done].
  by rewrite (lookup_app_l_Some _ _ _ _ Hl).
Qed.

Lemma lookupArr_app (h h' : list cell) (l : loc) (elems : list loc) :
  lookupArr h l = Some elems → lookupArr (h ++ h') l = Some elems.
Proof.
  unfold lookupArr. destruct (h !! l) as [c|] eqn:Hl; [|done].
  by rewrite (lookup_app_l_Some _ _ _ _ Hl).
Qed.

Lemma deref_app (h h' : list cell) (l : loc) (msgs : list ChatMessage) :
  deref h l = Some msgs → deref (h ++ h') l = Some msgs.
Proof.
  unfold deref. destruct (lookupArr h l) as [elems|] eqn:Ha; [|done].
  rewrite (lookupArr_app _ h' _ _ Ha). simpl.
  rewrite !mapM_Some. intros HF. eapply Forall2_impl; [exact HF|].
  intros p msg. apply lookupObj_app.
Qed.

Lemma lookupArr_new (h : list cell) (elems : list loc) :
  lookupArr (h ++ [Arr elems]) (length h) = Some elems.
Proof. unfold lookupArr. by rewrite list_lookup_middle. Qed.

Lemma lookupObj_new (h : list cell) (msg : ChatMessage) :
  lookupObj (h ++ [Obj msg]) (length h) = Some msg.
Proof. unfold lookupObj. by rewrite list_lookup_middle. Qed.

(** An array of the messages [msgs] extended by a reference to [msg]. *)
Lemma deref_push (h : list cell) (l o : loc) (elems : list loc)
    (msgs : list ChatMessage) (msg : ChatMessage) :
  lookupArr h l = Some elems →
  deref h l = Some msgs →
  lookupObj h o = Some msg →
  deref (h ++ [Arr (elems ++ [o])]) (length h) = Some (msgs ++ [msg]).
Proof.
  intros Ha Hd Ho. unfold deref in *. rewrite lookupArr_new. rewrite Ha in Hd.
  simpl in *. rewrite mapM_Some in *. apply Forall2_app.
  - eapply Forall2_impl; [exact Hd|]. intros p m. apply lookupObj_app.
  - constructor; [|constructor]. by apply lookupObj_app.
Qed.

(** ** Running computations *)

Lemma bind_run {A B} (c : M A) (k : A → M B) (w : World) :
  (c ≫= k) w =
  match c w with
  | (Normal a, w') => k a w'
  | (Throw e, w') => (Throw e, w')
  end.
Proof. reflexivity. Qed.

Lemma ret_run {A} (a : A) (w : World) : mret (M:=M) a w = (Normal a, w).
Proof. reflexivity. Qed.

Lemma mapM_cons_run {A B} (f : A → M B) (x : A) (l : list A) :
  mapM f (x :: l) = f x ≫= λ y, mapM f l ≫= λ k, mret (y :: k).
Proof. reflexivity. Qed.

Lemma readObj_run (p : loc) (w : World) :
  readObj p w =
  match lookupObj (heap w) p with
  | Some msg => (Normal msg, w)
  | None => (Throw (TypeError "not a message"), w)
  end.
Proof. unfold readObj, lookupObj. by destruct (heap w !! p) as [[|]|]. Qed.

Lemma readArr_run (l : loc) (w : World) :
  readArr l w =
  match lookupArr (heap w) l with
  | Some elems => (Normal elems, w)
  | None => (Throw (TypeError "not an array"), w)
  end.
Proof. unfold readArr, lookupArr. by destruct (heap w !! l) as [[|]|]. Qed.

(** ** Reading the history *)

(** Mapping the elements reads the heap and leaves the world as it was; it
    completes normally exactly when every element is a message. *)
Lemma mapM_readObj_run (elems : list loc) (w : World) :
  mapM (λ p, msg ← readObj p; mret (toContent msg)) elems w =
  match mapM (lookupObj (heap w)) elems with
  | Some msgs => (Normal (map toContent msgs), w)
  | None => (Throw (TypeError "not a message"), w)
  end.
Proof.
  induction elems as [|p elems IH]; [done|].
  rewrite mapM_cons_run, !bind_run, readObj_run.
  change (mapM (lookupObj (heap w)) (p :: elems))
    with (msg ← lookupObj (heap w) p; k ← mapM (lookupObj (heap w)) elems; Some (msg :: k)).
  destruct (lookupObj (heap w) p) as [msg|]; [|done]. simpl.
  rewrite bind_run, IH.
  by destruct (mapM (lookupObj (heap w)) elems).
Qed.

Lemma mapHistory_run (history : loc) (w : World) :
  mapHistory history w =
  match deref (heap w) history with
  | Some msgs => (Normal (map toContent msgs), w)
  | None =>
      (Throw (TypeError (match lookupArr (heap w) history with
                         | Some _ => "not a message"
                         | None => "not an array"
                         end)), w)
  end.
Proof.
  unfold mapHistory, deref. rewrite bind_run, readArr_run.
  destruct (lookupArr (heap w) history) as [elems|]; [|done]. simpl.
  rewrite mapM_readObj_run. by destruct (mapM (lookupObj (heap w)) elems).
Qed.

(** ** One call of [askOpticsExpert] *)

(** The whole function, case by case: on a history that holds the messages
    [msgs] one request goes out and the answer follows the way the call
    settles; on anything else the [TypeError] of the read is caught. *)
Lemma askOpticsExpert_run backend query history language w :
  askOpticsExpert backend query history language w =
  match deref (heap w) history with
  | Some msgs =>
      let request := spec_request query msgs language in
      match backend (sent w) request with
      | Fulfilled response =>
          (Normal (or_else (response_text response) (noAnswerText language)),
           withSent request w)
      | Rejected error =>
          (Normal (errorText language),
           withLog (errorRecord error) (withSent request w))
      end
  | None =>
      (Normal (errorText language),
       withLog (errorRecord (TypeError (match lookupArr (heap w) history with
                                        | Some _ => "not a message"
                                        | None => "not an array"
                                        end))) w)
  end.
Proof.
  unfold askOpticsExpert, try_catch. rewrite bind_run, mapHistory_run.
  destruct (deref (heap w) history) as [msgs|]; [|done].
  rewrite bind_run. unfold generateContent.
  change (map toContent msgs ++ [queryContent query]) with (spec_turns msgs query).
  change {| request_model := model_id;
            request_contents := spec_turns msgs query;
            config := _ |}
    with (spec_request query msgs language).
  by destruct (backend (sent w) (spec_request query msgs language)).
Qed.

Lemma askOpticsExpert_sent backend query history language w msgs :
  deref (heap w) history = Some msgs →
  sent (askOpticsExpert backend query history language w).2
  = sent w ++ [spec_request query msgs language].
Proof.
  intros Hd. rewrite askOpticsExpert_run, Hd. simpl.
  by destruct (backend (sent w) (spec_request query msgs language)).
Qed.

Lemma askOpticsExpert_heap backend query history language w :
  heap (askOpticsExpert backend query history language w).2 = heap w.
Proof.
  rewrite askOpticsExpert_run.
  destruct (deref (heap w) history) as [msgs|]; [|done]. simpl.
  by destruct (backend (sent w) (spec_request query msgs language)).
Qed.

Lemma askOpticsExpert_Normal backend query history language w :
  ∃ answer, (askOpticsExpert backend query history language w).1 = Normal answer
            ∧ answer ≠ "".
Proof.
  rewrite askOpticsExpert_run.
  destruct (deref (heap w) history) as [msgs|]; simpl.
  - destruct (backend (sent w) (spec_request query msgs language)); simpl;
      eauto using or_else_nonempty, noAnswerText_nonempty, errorText_nonempty.
  - eauto using errorText_nonempty.
Qed.

Lemma spec_turns_lookup (msgs : list ChatMessage) (query : string) (i : nat)
    (msg : ChatMessage) :
  msgs !! i = Some msg →
  spec_turns msgs query !! i = Some (turn (role msg) (text msg)).
Proof.
  intros Hi. unfold spec_turns.
  rewrite lookup_app_l by (rewrite length_map; by eapply lookup_lt_Some).
  by rewrite list_lookup_fmap, Hi.
Qed.

Lemma spec_turns_last (msgs : list ChatMessage) (query : string) :
  spec_turns msgs query !! length msgs = Some (turn user query).
Proof.
  unfold spec_turns.
  replace (length msgs) with (length (map (λ msg, turn (role msg) (text msg)) msgs))
    by apply length_map.
  apply list_lookup_middle. done.
Qed.

Lemma spec_turns_length (msgs : list ChatMessage) (query : string) :
  length (spec_turns msgs query) = S (length msgs).
Proof. unfold spec_turns. rewrite length_app, length_map. simpl. lia. Qed.

(** ** Claims about [askOpticsExpert] *)

(** C1. For every query string (the empty and the whitespace-only ones
    included), every history reference, every language, every backend and
    every world, the promise of [askOpticsExpert] is resolved, never rejected:
    the call completes normally, and the string it resolves to is not empty. *)
Theorem ask_always_resolves backend query history language w :
  ∃ answer,
    (askOpticsExpert backend query history language w).1 = Normal answer
    ∧ answer ≠ "".
Proof. apply askOpticsExpert_Normal. Qed.

(** A whitespace-only query against a backend that rejects, and against one
    that answers without text. *)
Example ask_whitespace_query :
  (askOpticsExpert failingBackend "   " 1 en sampleWorld).1
  = Normal "Error connecting to the Optics AI Tutor. Please check your API key."
  ∧ (askOpticsExpert silentBackend "   " 1 zh sampleWorld).1
    = Normal "抱歉，我现在无法回答光学问题。".
Proof. split; reflexivity. Qed.

(** The scenario of the specification: one welcome message in the history, a
    question in English, a backend that answers. *)
Example ask_scenario :
  let answer := "Low angle light skims the flat surface..." in
  let result :=
    askOpticsExpert (fixedBackend answer) "Why low angle for scratches?" 1 en
      sampleWorld in
  result.1 = Normal answer
  ∧ map request_contents (sent result.2)
    = [ [ turn model "Hi! ..."; turn user "Why low angle for scratches?" ] ]
  ∧ includes (systemInstruction en) "Reply in English." = true.
Proof. split_and!; reflexivity. Qed.

(** C2. When the history holds the messages [msgs], the turn sequence handed to
    the backend is [msgs] in order with every role kept, then one USER turn
    with the query: same length plus one, the i-th turn is the i-th message,
    the last turn is the query. *)
Theorem ask_turn_sequence backend query history language w msgs :
  deref (heap w) history = Some msgs →
  ∃ request,
    sent (askOpticsExpert backend query history language w).2 = sent w ++ [request]
    ∧ request_contents request = spec_turns msgs query
    ∧ length (request_contents request) = S (length msgs)
    ∧ (∀ i msg, msgs !! i = Some msg →
         request_contents request !! i = Some (turn (role msg) (text msg)))
    ∧ request_contents request !! length msgs = Some (turn user query).
Proof.
  intros Hd. exists (spec_request query msgs language).
  split; [by apply askOpticsExpert_sent|]. simpl.
  auto using spec_turns_length, spec_turns_lookup, spec_turns_last.
Qed.

Lemma ask_turn_sequence_witness :
  deref (heap sampleWorld) 1 = Some sampleHistory
  ∧ ∃ request,
      sent (askOpticsExpert echoBackend "Why low angle for scratches?" 1 en
              sampleWorld).2 = sent sampleWorld ++ [request]
      ∧ request_contents request
        = spec_turns sampleHistory "Why low angle for scratches?"
      ∧ length (request_contents request) = S (length sampleHistory)
      ∧ (∀ i msg, sampleHistory !! i = Some msg →
           request_contents request !! i = Some (turn (role msg) (text msg)))
      ∧ request_contents request !! length sampleHistory
        = Some (turn user "Why low angle for scratches?").
Proof.
  split; [reflexivity|].
  apply (ask_turn_sequence echoBackend "Why low angle for scratches?" 1 en
           sampleWorld sampleHistory).
  reflexivity.
Defined.

(** C3. When the backend call throws [error], [askOpticsExpert] catches it:
    the call still completes normally, with the fixed error string of the
    language, and the only trace of the error is one [console.error] record. *)
Theorem ask_backend_failure backend query history language w msgs error :
  deref (heap w) history = Some msgs →
  backend (sent w) (spec_request query msgs language) = Rejected error →
  let result := askOpticsExpert backend query history language w in
  result.1 = Normal (errorText language)
  ∧ console result.2 = console w ++ [errorRecord error]
  ∧ errorText language =
      match language with
      | en => "Error connecting to the Optics AI Tutor. Please check your API key."
      | zh => "连接 AI 导师失败，请检查 API 密钥。"
      end.
Proof.
  intros Hd Hb. simpl. rewrite askOpticsExpert_run, Hd. simpl. rewrite Hb.
  by destruct language.
Qed.

Lemma ask_backend_failure_witness :
  deref (heap sampleWorld) 1 = Some sampleHistory
  ∧ failingBackend (sent sampleWorld) (spec_request "Why?" sampleHistory zh)
    = Rejected (ApiError "API key not valid")
  ∧ (askOpticsExpert failingBackend "Why?" 1 zh sampleWorld).1
    = Normal (errorText zh)
  ∧ console (askOpticsExpert failingBackend "Why?" 1 zh sampleWorld).2
    = console sampleWorld ++ [errorRecord (ApiError "API key not valid")]
  ∧ errorText zh = "连接 AI 导师失败，请检查 API 密钥。".
Proof.
  split; [reflexivity|]. split; [reflexivity|].
  exact (ask_backend_failure failingBackend "Why?" 1 zh sampleWorld sampleHistory
           (ApiError "API key not valid") eq_refl eq_refl).
Defined.

(** C4. When the backend call succeeds, nothing is logged; a reply without text
    ([undefined] or the empty string) gives the fixed no-answer string of the
    language, which differs from the error string of that language, and a
    reply with text is returned as it is. *)
Theorem ask_backend_success backend query history language w msgs response :
  deref (heap w) history = Some msgs →
  backend (sent w) (spec_request query msgs language) = Fulfilled response →
  let result := askOpticsExpert backend query history language w in
  console result.2 = console w
  ∧ (response_text response = None ∨ response_text response = Some "" →
       result.1 = Normal (noAnswerText language))
  ∧ (∀ reply, response_text response = Some reply → reply ≠ "" →
       result.1 = Normal reply)
  ∧ noAnswerText language ≠ errorText language
  ∧ noAnswerText language =
      match language with
      | en => "I couldn't generate a response regarding optics at the moment."
      | zh => "抱歉，我现在无法回答光学问题。"
      end.
Proof.
  intros Hd Hb. simpl. rewrite askOpticsExpert_run, Hd. simpl. rewrite Hb. simpl.
  split_and!.
  - done.
  - by intros [-> | ->].
  - intros reply -> Hne. by rewrite or_else_truthy.
  - by destruct language.
  - by destruct language.
Qed.

Lemma ask_backend_success_witness :
  deref (heap sampleWorld) 1 = Some sampleHistory
  ∧ emptyBackend (sent sampleWorld) (spec_request "Why?" sampleHistory en)
    = Fulfilled {| response_text := Some "" |}
  ∧ console (askOpticsExpert emptyBackend "Why?" 1 en sampleWorld).2
    = console sampleWorld
  ∧ (response_text {| response_text := Some "" |} = None
     ∨ response_text {| response_text := Some "" |} = Some "" →
       (askOpticsExpert emptyBackend "Why?" 1 en sampleWorld).1
       = Normal (noAnswerText en))
  ∧ (∀ reply, response_text {| response_text := Some "" |} = Some reply →
       reply ≠ "" →
       (askOpticsExpert emptyBackend "Why?" 1 en sampleWorld).1 = Normal reply)
  ∧ noAnswerText en ≠ errorText en
  ∧ noAnswerText en
    = "I couldn't generate a response regarding optics at the moment.".
Proof.
  split; [reflexivity|]. split; [reflexivity|].
  exact (ask_backend_success emptyBackend "Why?" 1 en sampleWorld sampleHistory
           {| response_text := Some "" |} eq_refl eq_refl).
Defined.

(** C5. The system prompt of the request: for [zh] it carries the directive to
    reply in Simplified Chinese with standard Machine Vision terminology, and
    no instruction to reply in English; for [en] it carries neither that
    directive nor the word Chinese at all, and tells the backend to reply in
    English. *)
Theorem system_prompt_language_directive backend query history language w msgs :
  deref (heap w) history = Some msgs →
  ∃ request,
    sent (askOpticsExpert backend query history language w).2 = sent w ++ [request]
    ∧ let prompt := config_systemInstruction (config request) in
      match language with
      | zh =>
          contains prompt
            "Reply in Simplified Chinese. Explain concepts using standard Machine Vision terminology in Chinese."
          ∧ ¬ contains prompt "Reply in English."
      | en =>
          ¬ contains prompt
            "Reply in Simplified Chinese. Explain concepts using standard Machine Vision terminology in Chinese."
          ∧ ¬ contains prompt "Chinese"
          ∧ contains prompt "Reply in English."
      end.
Proof.
  intros Hd. exists (spec_request query msgs language).
  split; [by apply askOpticsExpert_sent|]. simpl.
  destruct language; split_and!;
    first [ apply includes_spec; vm_compute; reflexivity
          | apply not_includes_spec; vm_compute; reflexivity ].
Qed.

Lemma system_prompt_language_directive_witness :
  deref (heap sampleWorld) 1 = Some sampleHistory
  ∧ ∃ request,
      sent (askOpticsExpert echoBackend "Why?" 1 zh sampleWorld).2
      = sent sampleWorld ++ [request]
      ∧ contains (config_systemInstruction (config request))
          "Reply in Simplified Chinese. Explain concepts using standard Machine Vision terminology in Chinese."
      ∧ ¬ contains (config_systemInstruction (config request)) "Reply in English.".
Proof.
  split; [reflexivity|].
  exact (system_prompt_language_directive echoBackend "Why?" 1 zh sampleWorld
           sampleHistory eq_refl).
Defined.

(** C7. [askOpticsExpert] only reads the history: whatever the arguments and
    however the call ends, the heap afterwards is the heap before, so the
    history array and every message object are what they were. *)
Theorem ask_history_read_only backend query history language w :
  let w' := (askOpticsExpert backend query history language w).2 in
  heap w' = heap w
  ∧ lookupArr (heap w') history = lookupArr (heap w) history
  ∧ (∀ p, lookupObj (heap w') p = lookupObj (heap w) p)
  ∧ deref (heap w') history = deref (heap w) history.
Proof.
  simpl. rewrite askOpticsExpert_heap. done.
Qed.

(** C8. On a history that holds messages, one call of [askOpticsExpert] sends
    exactly one request, whether the backend fulfils or rejects it: the model
    is the fixed identifier, the temperature is 0.7, and the request carries
    the system prompt of the language and the assembled turns. *)
Theorem ask_one_backend_call backend query history language w msgs :
  deref (heap w) history = Some msgs →
  ∃ request,
    sent (askOpticsExpert backend query history language w).2 = sent w ++ [request]
    ∧ length (sent (askOpticsExpert backend query history language w).2)
      = S (length (sent w))
    ∧ request_model request = "gemini-2.5-flash"
    ∧ temperature (config request) = 0.7%float
    ∧ config_systemInstruction (config request) = systemInstruction language
    ∧ request_contents request = spec_turns msgs query.
Proof.
  intros Hd. exists (spec_request query msgs language).
  rewrite (askOpticsExpert_sent _ _ _ _ _ _ Hd), length_app. simpl.
  split_and!; try done. lia.
Qed.

Lemma ask_one_backend_call_witness :
  deref (heap sampleWorld) 1 = Some sampleHistory
  ∧ ∃ request,
      sent (askOpticsExpert failingBackend "Why?" 1 en sampleWorld).2
      = sent sampleWorld ++ [request]
      ∧ length (sent (askOpticsExpert failingBackend "Why?" 1 en sampleWorld).2)
        = S (length (sent sampleWorld))
      ∧ request_model request = "gemini-2.5-flash"
      ∧ temperature (config request) = 0.7%float
      ∧ config_systemInstruction (config request) = systemInstruction en
      ∧ request_contents request = spec_turns sampleHistory "Why?".
Proof.
  split; [reflexivity|].
  exact (ask_one_backend_call failingBackend "Why?" 1 en sampleWorld sampleHistory
           eq_refl).
Defined.

(** C9. The request is a function of the query, the messages of the history and
    the language alone: two calls that agree on these send the same request,
    in whatever worlds, through whatever references and against whatever
    backends they run. *)
Theorem prompt_construction_deterministic
    backend1 backend2 query history1 history2 language w1 w2 msgs :
  deref (heap w1) history1 = Some msgs →
  deref (heap w2) history2 = Some msgs →
  ∃ request,
    sent (askOpticsExpert backend1 query history1 language w1).2
    = sent w1 ++ [request]
    ∧ sent (askOpticsExpert backend2 query history2 language w2).2
      = sent w2 ++ [request].
Proof.
  intros Hd1 Hd2. exists (spec_request query msgs language).
  split; by apply askOpticsExpert_sent.
Qed.

Lemma prompt_construction_deterministic_witness :
  deref (heap sampleWorld) 1 = Some sampleHistory
  ∧ deref (heap laterWorld) 3 = Some sampleHistory
  ∧ ∃ request,
      sent (askOpticsExpert echoBackend "Why?" 1 zh sampleWorld).2
      = sent sampleWorld ++ [request]
      ∧ sent (askOpticsExpert failingBackend "Why?" 3 zh laterWorld).2
        = sent laterWorld ++ [request].
Proof.
  split; [reflexivity|]. split; [reflexivity|].
  exact (prompt_construction_deterministic echoBackend failingBackend "Why?" 1 3 zh
           sampleWorld laterWorld sampleHistory eq_refl eq_refl).
Defined.

(** ** The message store *)

Lemma snapshot_lookupArr (st : AIChatState) (w : World) (msgs : list ChatMessage) :
  snapshot st w = Some msgs →
  ∃ elems, lookupArr (heap w) (messages st) = Some elems.
Proof.
  unfold snapshot, deref.
  destruct (lookupArr (heap w) (messages st)) as [elems|]; [eauto | done].
Qed.

(** Appending allocates the message and a new array; the snapshot grows by the
    message, and console and requests are left alone. *)
Lemma append_run (msg : ChatMessage) (st : AIChatState) (w : World)
    (msgs : list ChatMessage) :
  snapshot st w = Some msgs →
  ∃ w', append msg st w = (Normal (setMessages (S (length (heap w))) st), w')
        ∧ snapshot (setMessages (S (length (heap w))) st) w' = Some (msgs ++ [msg])
        ∧ console w' = console w
        ∧ sent w' = sent w.
Proof.
  intros Hs. destruct (snapshot_lookupArr _ _ _ Hs) as [elems Ha].
  exists (withCell (Arr (elems ++ [length (heap w)])) (withCell (Obj msg) w)).
  split_and!; try done.
  - unfold append, pushMessage. rewrite bind_run. unfold alloc at 1.
    cbv beta iota. rewrite bind_run, readArr_run.
    change (heap (withCell (Obj msg) w)) with (heap w ++ [Obj msg]).
    rewrite (lookupArr_app _ [Obj msg] _ _ Ha). rewrite bind_run. unfold alloc.
    simpl. rewrite length_app. simpl. by rewrite Nat.add_1_r.
  - unfold snapshot. simpl.
    replace (S (length (heap w))) with (length (heap w ++ [Obj msg]))
      by (rewrite length_app; simpl; lia).
    apply (deref_push _ (messages st)).
    + by apply lookupArr_app.
    + by apply deref_app.
    + apply lookupObj_new.
Qed.

Lemma appendAll_run (new : list ChatMessage) (st : AIChatState) (w : World)
    (msgs : list ChatMessage) :
  snapshot st w = Some msgs →
  ∃ st' w', appendAll new st w = (Normal st', w')
            ∧ snapshot st' w' = Some (msgs ++ new)
            ∧ initialized st' = initialized st.
Proof.
  revert st w msgs. induction new as [|msg new IH]; intros st w msgs Hs.
  - exists st, w. by rewrite app_nil_r.
  - destruct (append_run msg st w msgs Hs) as (w1 & Hrun & Hs1 & _ & _).
    destruct (IH _ _ _ Hs1) as (st' & w' & Hrun' & Hs' & Hi).
    exists st', w'. simpl. rewrite bind_run, Hrun, Hrun'.
    by rewrite <- app_assoc in Hs'.
Qed.

(** The reset, from any state of the hooks in any world. *)
Lemma reset_run (isZh : bool) (st : AIChatState) (w : World) :
  ∃ st' w', reset isZh st w = (Normal st', w')
            ∧ snapshot st' w' = Some [welcomeMessage isZh]
            ∧ initialized st' = true.
Proof.
  eexists _, _. split; [reflexivity|]. split; [|done].
  unfold snapshot, deref. simpl.
  replace (S (length (heap w)))
    with (length (heap w ++ [Obj (welcomeMessage isZh)]))
    by (rewrite length_app; simpl; lia).
  rewrite lookupArr_new. simpl.
  rewrite (lookupObj_app _ [Arr [length (heap w)]] _ (welcomeMessage isZh));
    [done | apply lookupObj_new].
Qed.

(** Once [initialized] is set the effect does nothing. *)
Lemma welcomeEffect_initialized (isZh : bool) (st : AIChatState) (w : World) :
  initialized st = true → welcomeEffect isZh st w = (Normal st, w).
Proof. intros Hi. unfold welcomeEffect. by rewrite Hi. Qed.

(** Before that it is the reset. *)
Lemma welcomeEffect_first (isZh : bool) (st : AIChatState) :
  initialized st = false → welcomeEffect isZh st = reset isZh st.
Proof. intros Hi. unfold welcomeEffect. by rewrite Hi. Qed.

Lemma askOpticsExpert_total backend query history language w :
  ∃ answer w', askOpticsExpert backend query history language w = (Normal answer, w')
               ∧ heap w' = heap w.
Proof.
  destruct (askOpticsExpert_Normal backend query history language w)
    as (answer & Hr & _).
  pose proof (askOpticsExpert_heap backend query history language w) as Hh.
  destruct (askOpticsExpert backend query history language w) as [r w'].
  simpl in *. subst r. by exists answer, w'.
Qed.

(** ** The component *)

Section ComponentProperties.

Variable trim : string → string.
Variable backend : Backend.

(** A send either does nothing (blank input, or a call in flight) or appends
    one exchange: the input as typed, then the answer. *)
Lemma handleSend_run language st w msgs :
  snapshot st w = Some msgs →
  ∃ st' w' new,
    handleSend trim backend language st w = (Normal st', w')
    ∧ snapshot st' w' = Some (msgs ++ new)
    ∧ initialized st' = initialized st
    ∧ (new = [] ∨ ∃ answer, new = exchange (input st, answer)).
Proof.
  intros Hs. unfold handleSend.
  destruct (bool_decide (trim (input st) = "") || isLoading st).
  { exists st, w, []. rewrite app_nil_r. auto. }
  destruct (append_run {| role := user; text := input st |} st w msgs Hs)
    as (w1 & Hrun1 & Hs1 & _ & _).
  cbv zeta. rewrite bind_run, Hrun1, bind_run.
  destruct (askOpticsExpert_total backend (input st) (messages st) language w1)
    as (answer & w2 & Hask & Hheap).
  rewrite Hask, bind_run.
  set (st1 := setMessages (S (length (heap w))) st) in *.
  assert (snapshot (setIsLoading true (setInput "" st1)) w2
          = Some (msgs ++ [ {| role := user; text := input st |} ])) as Hs2
    by (unfold snapshot in *; simpl; by rewrite Hheap).
  destruct (append_run {| role := model; text := answer |} _ w2 _ Hs2)
    as (w3 & Hrun3 & Hs3 & _ & _).
  rewrite Hrun3. eexists _, w3, _. split; [reflexivity|].
  split; [|split; [done|right; by exists answer]].
  unfold snapshot in *. simpl in *. by rewrite <- app_assoc in Hs3.
Qed.

Lemma mountAIChat_run l w :
  ∃ c w', mountAIChat l w = (Normal c, w')
          ∧ language (props c) = l
          ∧ initialized (state c) = true
          ∧ snapshot (state c) w' = Some [welcomeMessage (isZh l)].
Proof.
  unfold mountAIChat, mount. rewrite !bind_run. unfold alloc at 1.
  cbv beta iota. rewrite ret_run, bind_run, welcomeEffect_first by done.
  destruct (reset_run (isZh l)
              {| messages := length (heap w); input := ""; isLoading := false;
                 initialized := false |} (withCell (Arr []) w))
    as (st' & w' & Hrun & Hs & Hi).
  rewrite Hrun. by eexists _, _.
Qed.

Lemma step_seeded isZh0 ev c w :
  seeded isZh0 c w →
  ∃ c' w', step trim backend ev c w = (Normal c', w') ∧ seeded isZh0 c' w'.
Proof.
  intros [Hi [exchanges Hs]]. destruct ev as [l | value |]; simpl.
  - exists {| props := {| language := l |}; state := state c |}, w.
    split; [|by split; eauto]. rewrite bind_run.
    destruct (bool_decide _); [done|].
    by rewrite welcomeEffect_initialized.
  - eexists _, w. split; [reflexivity|]. split; eauto.
  - destruct (handleSend_run (language (props c)) _ _ _ Hs)
      as (st' & w' & new & Hrun & Hs' & Hi' & Hnew).
    exists {| props := props c; state := st' |}, w'.
    rewrite bind_run, Hrun. split; [done|]. split; [simpl; congruence|].
    destruct Hnew as [-> | [answer ->]].
    + exists exchanges. simpl. by rewrite app_nil_r in Hs'.
    + exists (exchanges ++ [(input (state c), answer)]).
      rewrite flat_map_app. simpl in *. by rewrite Hs'.
Qed.

Lemma run_seeded isZh0 evs c w :
  seeded isZh0 c w →
  ∃ c' w', run trim backend evs c w = (Normal c', w') ∧ seeded isZh0 c' w'.
Proof.
  revert c w. induction evs as [|ev evs IH]; intros c w Hc; [by exists c, w|].
  destruct (step_seeded isZh0 ev c w Hc) as (c1 & w1 & Hstep & Hc1).
  destruct (IH c1 w1 Hc1) as (c' & w' & Hrun & Hc').
  exists c', w'. simpl. by rewrite bind_run, Hstep.
Qed.

End ComponentProperties.

(** ** Claims about the message store *)

Lemma mount_welcomeEffect_run (isZh0 : bool) (w : World) :
  ∃ st w', (mount ≫= welcomeEffect isZh0) w = (Normal st, w')
           ∧ snapshot st w' = Some [welcomeMessage isZh0]
           ∧ initialized st = true.
Proof.
  unfold mount. rewrite !bind_run. unfold alloc at 1. cbv beta iota.
  rewrite ret_run, welcomeEffect_first by done.
  apply reset_run.
Qed.

Lemma store_run_snapshot (ops : list StoreOp) (st : AIChatState) (w : World)
    (msgs : list ChatMessage) :
  initialized st = true →
  snapshot st w = Some msgs →
  ∃ st' w', store_run ops st w = (Normal st', w')
            ∧ snapshot st' w' = Some (msgs ++ appended ops)
            ∧ initialized st' = true.
Proof.
  revert st w msgs. induction ops as [|[isZh'|msg] ops IH]; intros st w msgs Hi Hs.
  - exists st, w. by rewrite app_nil_r.
  - destruct (IH st w msgs Hi Hs) as (st' & w' & Hrun & Hs' & Hi').
    exists st', w'. cbn [store_run store_step appended].
    by rewrite bind_run, welcomeEffect_initialized.
  - destruct (append_run msg st w msgs Hs) as (w1 & Hrun1 & Hs1 & _ & _).
    destruct (IH (setMessages (S (length (heap w))) st) w1 _ Hi Hs1)
      as (st' & w' & Hrun & Hs' & Hi').
    exists st', w'. cbn [store_run store_step appended].
    rewrite bind_run, Hrun1, Hrun. by rewrite <- app_assoc in Hs'.
Qed.

(** C6. The reset of the store is the welcome effect. Run on the freshly
    mounted store it seeds exactly one message, the MODEL welcome message.
    It is idempotent: run again, right away or at any later point and with
    either language, it changes neither the hooks nor the world. Messages
    appended after it come out of the snapshot behind the welcome message in
    the order of the calls, also when the effect runs again in between. *)
Theorem reset_then_append_snapshot
    (isZh0 : bool) (msgs : list ChatMessage) (ops : list StoreOp) (w : World) :
  ∃ st1 w1,
    (mount ≫= welcomeEffect isZh0) w = (Normal st1, w1)
    ∧ snapshot st1 w1 = Some [welcomeMessage isZh0]
    ∧ role (welcomeMessage isZh0) = model
    ∧ (∀ isZh', welcomeEffect isZh' st1 w1 = (Normal st1, w1))
    ∧ (∃ st2 w2, appendAll msgs st1 w1 = (Normal st2, w2)
                 ∧ snapshot st2 w2 = Some (welcomeMessage isZh0 :: msgs))
    ∧ (∃ st3 w3, store_run ops st1 w1 = (Normal st3, w3)
                 ∧ snapshot st3 w3 = Some (welcomeMessage isZh0 :: appended ops)
                 ∧ ∀ isZh', welcomeEffect isZh' st3 w3 = (Normal st3, w3)).
Proof.
  destruct (mount_welcomeEffect_run isZh0 w) as (st1 & w1 & Hrun & Hs & Hi).
  exists st1, w1. split_and!; try done.
  - intros isZh'. by apply welcomeEffect_initialized.
  - destruct (appendAll_run msgs st1 w1 _ Hs) as (st2 & w2 & Hrun2 & Hs2 & _).
    eauto.
  - destruct (store_run_snapshot ops st1 w1 _ Hi Hs) as (st3 & w3 & Hrun3 & Hs3 & Hi3).
    exists st3, w3. split_and!; try done.
    intros isZh'. by apply welcomeEffect_initialized.
Qed.

(** A store that is reset, appended to and reset again under the other
    language keeps its welcome message and what was appended. *)
Example reset_again_keeps_the_store :
  match (mount ≫= store_run [ EffectRuns false;
                              Appends {| role := user; text := "q1" |};
                              EffectRuns true;
                              Appends {| role := model; text := "a1" |} ])
          emptyWorld with
  | (Normal st, w) => snapshot st w
  | (Throw _, _) => None
  end
  = Some [ welcomeMessage false;
           {| role := user; text := "q1" |}; {| role := model; text := "a1" |} ].
Proof. vm_compute. reflexivity. Qed.

(** C10. Whatever the first language, whatever events follow the mount and in
    whatever world: the component is initialized, and its store is the welcome
    message in the first language followed by whole exchanges (a query and its
    answer), so the welcome message was seeded once. From such a state a change
    of the language changes the [language] prop and nothing else: the hooks,
    the heap the messages live in, the console and the requests stay as they
    are. *)
Theorem welcome_seeded_once
    (trim : string → string) (backend : Backend)
    (language0 : Language) (evs : list Event) (w : World) :
  ∃ c w' exchanges,
    (mountAIChat language0 ≫= run trim backend evs) w = (Normal c, w')
    ∧ initialized (state c) = true
    ∧ snapshot (state c) w'
      = Some (welcomeMessage (isZh language0) :: flat_map exchange exchanges)
    ∧ (∀ l, step trim backend (LanguageChanged l) c w'
            = (Normal {| props := {| language := l |}; state := state c |}, w')).
Proof.
  destruct (mountAIChat_run language0 w) as (c0 & w0 & Hmount & _ & Hi0 & Hs0).
  assert (seeded (isZh language0) c0 w0) as Hseeded0
    by (split; [done | by exists []]).
  destruct (run_seeded trim backend _ evs c0 w0 Hseeded0)
    as (c & w' & Hrun & Hi & exchanges & Hs).
  exists c, w', exchanges. rewrite bind_run, Hmount. split_and!; try done.
  intros l. simpl. rewrite bind_run.
  destruct (bool_decide _); [done|].
  by rewrite welcomeEffect_initialized.
Qed.

(** A session: a question in English, a switch to Chinese, a blank input, a
    second question. The welcome message stays the English one. *)
Example session_snapshot :
  match (mountAIChat en ≫=
           run (λ s, if bool_decide (s = " ") then "" else s) (fixedBackend "A")
             [ InputChanged "q1"; SendClicked; LanguageChanged zh;
               InputChanged " "; SendClicked; InputChanged "q2"; SendClicked ])
          emptyWorld with
  | (Normal c, w) => snapshot (state c) w
  | (Throw _, _) => None
  end
  = Some [ welcomeMessage false;
           {| role := user; text := "q1" |}; {| role := model; text := "A" |};
           {| role := user; text := "q2" |}; {| role := model; text := "A" |} ].
Proof. vm_compute. reflexivity. Qed.


(** * Further properties of the code *)

(** ** Paragraphs of a message *)

Lemma is_newline_spec (c : Ascii.ascii) :
  is_newline c = true → String c "" = newline.
Proof. unfold is_newline. intros Hc. apply Ascii.eqb_eq in Hc. by subst c. Qed.

Lemma split_newline_not_nil (s : string) : split_newline s ≠ [].
Proof.
  destruct s as [|c s]; [done|]. simpl.
  destruct (is_newline c); [done|]. by destruct (split_newline s).
Qed.

Lemma concat_String (sep : string) (c : Ascii.ascii) (line : string)
    (rest : list string) :
  String.concat sep (String c line :: rest)
  = String c (String.concat sep (line :: rest)).
Proof. by destruct rest. Qed.

Lemma concat_split_newline (s : string) :
  String.concat newline (split_newline s) = s.
Proof.
  induction s as [|c s IH]; [done|]. simpl.
  destruct (is_newline c) eqn:Hc.
  - pose proof (split_newline_not_nil s) as Hne.
    destruct (split_newline s) as [|line rest]; [done|].
    change (String.concat newline ("" :: line :: rest))
      with ("" +:+ newline +:+ String.concat newline (line :: rest)).
    rewrite IH, append_empty_l, <- (is_newline_spec c Hc). done.
  - pose proof (split_newline_not_nil s) as Hne.
    destruct (split_newline s) as [|line rest]; [done|].
    by rewrite concat_String, IH.
Qed.

Lemma split_newline_no_newline (s : string) :
  Forall (λ line, has_newline line = false) (split_newline s).
Proof.
  induction s as [|c s IH]; simpl; [by repeat constructor|].
  destruct (is_newline c) eqn:Hc; [by constructor|].
  destruct (split_newline s) as [|line rest]; [by repeat constructor; simpl; rewrite Hc|].
  inversion IH as [|? ? Hline Hrest]; subst. constructor; [|done].
  simpl. by rewrite Hc.
Qed.

Lemma split_newline_line (line : string) :
  has_newline line = false → split_newline line = [line].
Proof.
  induction line as [|c line IH]; [done|]. simpl.
  destruct (is_newline c); [done|]. simpl. intros Hl. by rewrite IH.
Qed.

Lemma split_newline_append (line s : string) :
  has_newline line = false →
  split_newline (line +:+ newline +:+ s) = line :: split_newline s.
Proof.
  induction line as [|c line IH]; [done|]. rewrite append_String. simpl.
  destruct (is_newline c); [done|]. simpl. intros Hl. by rewrite IH.
Qed.

Lemma split_newline_concat (lines : list string) :
  lines ≠ [] →
  Forall (λ line, has_newline line = false) lines →
  split_newline (String.concat newline lines) = lines.
Proof.
  induction lines as [|line lines IH]; [done|]. intros _ Hall.
  inversion Hall as [|? ? Hline Hrest]; subst.
  destruct lines as [|line' lines].
  - by apply split_newline_line.
  - change (String.concat newline (line :: line' :: lines))
      with (line +:+ newline +:+ String.concat newline (line' :: lines)).
    rewrite split_newline_append by done. by rewrite IH.
Qed.

(** X1. Splitting a message at its line breaks loses nothing: joining the
    paragraphs with line breaks gives the text back, there is at least one
    paragraph, and no paragraph holds a line break. *)
Theorem paragraphs_join (msg : ChatMessage) :
  String.concat newline (paragraphs msg) = text msg
  ∧ paragraphs msg ≠ []
  ∧ Forall (λ line, has_newline line = false) (paragraphs msg).
Proof.
  unfold paragraphs.
  auto using concat_split_newline, split_newline_not_nil, split_newline_no_newline.
Qed.

(** X2. Conversely, a text made of lines joined by line breaks is rendered as
    exactly those lines: the split of the join of a non-empty list of lines
    without line breaks is that list. *)
Theorem paragraphs_of_lines (r : Role) (lines : list string) :
  lines ≠ [] →
  Forall (λ line, has_newline line = false) lines →
  paragraphs {| role := r; text := String.concat newline lines |} = lines.
Proof. apply split_newline_concat. Qed.

Lemma paragraphs_of_lines_witness :
  [ "* Low angle light"; ""; "* skims the surface" ] ≠ []
  ∧ Forall (λ line, has_newline line = false)
      [ "* Low angle light"; ""; "* skims the surface" ]
  ∧ paragraphs {| role := model;
                  text := String.concat newline
                            [ "* Low angle light"; ""; "* skims the surface" ] |}
    = [ "* Low angle light"; ""; "* skims the surface" ].
Proof.
  assert ([ "* Low angle light"; ""; "* skims the surface" ] ≠ []) as H1 by done.
  assert (Forall (λ line, has_newline line = false)
            [ "* Low angle light"; ""; "* skims the surface" ]) as H2
    by (repeat constructor).
  exact (conj H1 (conj H2 (paragraphs_of_lines model _ H1 H2))).
Defined.

(** ** The request determines the conversation *)

Lemma toContent_inj (msg msg' : ChatMessage) :
  turn (role msg) (text msg) = turn (role msg') (text msg') → msg = msg'.
Proof. destruct msg, msg'. unfold turn. simpl. congruence. Qed.

Lemma spec_turns_inj (msgs msgs' : list ChatMessage) (query query' : string) :
  spec_turns msgs query = spec_turns msgs' query' → msgs = msgs' ∧ query = query'.
Proof.
  unfold spec_turns. intros Heq.
  apply app_inj_tail in Heq as [Hmap Hlast]. split; [|unfold turn in Hlast; congruence].
  revert msgs' Hmap. induction msgs as [|msg msgs IH]; intros [|msg' msgs'] Hmap;
    simpl in Hmap; try done.
  assert (turn (role msg) (text msg) = turn (role msg') (text msg')) as Hhd
    by congruence.
  assert (map (λ m, turn (role m) (text m)) msgs
          = map (λ m, turn (role m) (text m)) msgs') as Htl by congruence.
  f_equal; [by apply toContent_inj | by apply IH].
Qed.

Lemma systemInstruction_inj (language language' : Language) :
  systemInstruction language = systemInstruction language' → language = language'.
Proof.
  destruct language, language'; try done; intros Heq; exfalso;
    apply String.eqb_eq in Heq; vm_compute in Heq; discriminate.
Qed.

(** X3. The request loses nothing of what went into it: when two calls on
    histories of messages send the same request, they had the same query, the
    same messages in the same order, and the same language. *)
Theorem request_determines_conversation
    backend1 backend2 query1 query2 history1 history2 language1 language2
    w1 w2 msgs1 msgs2 request :
  deref (heap w1) history1 = Some msgs1 →
  deref (heap w2) history2 = Some msgs2 →
  sent (askOpticsExpert backend1 query1 history1 language1 w1).2
  = sent w1 ++ [request] →
  sent (askOpticsExpert backend2 query2 history2 language2 w2).2
  = sent w2 ++ [request] →
  query1 = query2 ∧ msgs1 = msgs2 ∧ language1 = language2.
Proof.
  intros Hd1 Hd2 Hs1 Hs2.
  rewrite (askOpticsExpert_sent _ _ _ _ _ _ Hd1) in Hs1.
  rewrite (askOpticsExpert_sent _ _ _ _ _ _ Hd2) in Hs2.
  apply app_inj_tail in Hs1 as [_ Hr1]. apply app_inj_tail in Hs2 as [_ Hr2].
  assert (spec_request query1 msgs1 language1 = spec_request query2 msgs2 language2)
    as Heq by congruence.
  pose proof (f_equal request_contents Heq) as Hturns.
  pose proof (f_equal (λ r, config_systemInstruction (config r)) Heq) as Hprompt.
  cbn [spec_request request_contents config config_systemInstruction] in Hturns, Hprompt.
  apply spec_turns_inj in Hturns as [-> ->].
  by apply systemInstruction_inj in Hprompt as ->.
Qed.

Lemma request_determines_conversation_witness :
  deref (heap sampleWorld) 1 = Some sampleHistory
  ∧ deref (heap laterWorld) 3 = Some sampleHistory
  ∧ sent (askOpticsExpert echoBackend "Why?" 1 zh sampleWorld).2
    = sent sampleWorld ++ [spec_request "Why?" sampleHistory zh]
  ∧ sent (askOpticsExpert failingBackend "Why?" 3 zh laterWorld).2
    = sent laterWorld ++ [spec_request "Why?" sampleHistory zh]
  ∧ "Why?" = "Why?" ∧ sampleHistory = sampleHistory ∧ zh = zh.
Proof.
  split; [reflexivity|]. split; [reflexivity|].
  split; [reflexivity|]. split; [reflexivity|].
  exact (request_determines_conversation echoBackend failingBackend "Why?" "Why?"
           1 3 zh zh sampleWorld laterWorld sampleHistory sampleHistory
           (spec_request "Why?" sampleHistory zh) eq_refl eq_refl eq_refl eq_refl).
Defined.

(** ** The two halves of a send *)

Lemma askOpticsExpert_begin_run query history language w :
  askOpticsExpert_begin query history language w =
  match deref (heap w) history with
  | Some msgs =>
      (Normal (Awaiting (sent w) (spec_request query msgs language) language),
       withSent (spec_request query msgs language) w)
  | None =>
      (Normal (Resolved (errorText language)),
       withLog (errorRecord (TypeError (match lookupArr (heap w) history with
                                        | Some _ => "not a message"
                                        | None => "not an array"
                                        end))) w)
  end.
Proof.
  unfold askOpticsExpert_begin, try_catch. rewrite bind_run, mapHistory_run.
  by destruct (deref (heap w) history) as [msgs|].
Qed.

Lemma askOpticsExpert_split backend query history language w :
  askOpticsExpert backend query history language w
  = (askOpticsExpert_begin query history language
       ≫= askOpticsExpert_settle backend) w.
Proof.
  rewrite bind_run, askOpticsExpert_run, askOpticsExpert_begin_run.
  destruct (deref (heap w) history) as [msgs|]; [|done]. simpl.
  by destruct (backend (sent w) (spec_request query msgs language)).
Qed.

(** With the handler of the current hooks, the part of [handleSend] before the
    [await] followed by its part after it is [handleSend] in one go. *)
Lemma handleSend_begin_resume
    (trim : string → string) (backend : Backend)
    (l : Language) (st : AIChatState) (w : World) :
  handleSend trim backend l st w =
  (r ← handleSend_begin trim {| props := {| language := l |}; state := st |} st;
   match r.2 with
   | None => mret r.1
   | Some p => handleSend_resume backend p r.1
   end) w.
Proof.
  unfold handleSend, handleSend_begin. cbn [state props language].
  destruct (bool_decide (trim (input st) = "") || isLoading st); [done|].
  cbv zeta. rewrite !bind_run.
  destruct (append {| role := user; text := input st |} st w) as [[st1|e] w1];
    [|done].
  rewrite bind_run, askOpticsExpert_split, !bind_run.
  destruct (askOpticsExpert_begin (input st) (messages st) l w1) as [[p|e] w2];
    [|done].
  rewrite ret_run. unfold handleSend_resume. simpl. by rewrite bind_run.
Qed.

(** ** One send, in full *)

Lemma answer_of_nonempty (language : Language) (s : Settled) :
  answer_of language s ≠ "".
Proof.
  destruct s; simpl;
    auto using or_else_nonempty, noAnswerText_nonempty, errorText_nonempty.
Qed.

(** The call on a history of messages: the answer and the world it leaves. *)
Lemma askOpticsExpert_answer backend query history language w msgs :
  deref (heap w) history = Some msgs →
  let request := spec_request query msgs language in
  let settled := backend (sent w) request in
  askOpticsExpert backend query history language w
  = (Normal (answer_of language settled),
     {| heap := heap w;
        console := console w ++ log_of settled;
        sent := sent w ++ [request] |}).
Proof.
  intros Hd. simpl. rewrite askOpticsExpert_run, Hd. simpl.
  destruct (backend (sent w) (spec_request query msgs language)); simpl.
  - unfold withSent. simpl. by rewrite app_nil_r.
  - done.
Qed.

(** Appending, with what it does to the heap. *)
Lemma append_run_heap (msg : ChatMessage) (st : AIChatState) (w : World)
    (msgs : list ChatMessage) :
  snapshot st w = Some msgs →
  ∃ w', append msg st w = (Normal (setMessages (S (length (heap w))) st), w')
        ∧ snapshot (setMessages (S (length (heap w))) st) w' = Some (msgs ++ [msg])
        ∧ console w' = console w
        ∧ sent w' = sent w
        ∧ ∃ cells, heap w' = heap w ++ cells.
Proof.
  intros Hs. destruct (append_run msg st w msgs Hs) as (w' & Hrun & Hs' & Hc & Hsent).
  exists w'. split_and!; try done.
  destruct (snapshot_lookupArr _ _ _ Hs) as [elems Ha].
  revert Hrun. unfold append, pushMessage. rewrite bind_run. unfold alloc at 1.
  cbv beta iota. rewrite bind_run, readArr_run.
  change (heap (withCell (Obj msg) w)) with (heap w ++ [Obj msg]).
  rewrite (lookupArr_app _ [Obj msg] _ _ Ha), bind_run. unfold alloc. simpl.
  intros [= _ <-]. simpl. rewrite <- app_assoc. eauto.
Qed.

Section SendProperties.

Variable trim : string → string.
Variable backend : Backend.

(** A blank input, or a call in flight: nothing happens. *)
Lemma handleSend_ignored l st w :
  trim (input st) = "" ∨ isLoading st = true →
  handleSend trim backend l st w = (Normal st, w).
Proof.
  intros Hg. unfold handleSend.
  assert (bool_decide (trim (input st) = "") || isLoading st = true) as ->; [|done].
  destruct Hg as [Hb | ->]; [|by rewrite orb_true_r].
  by rewrite (bool_decide_eq_true_2 _ Hb).
Qed.

Lemma handleSend_sends l st w msgs :
  snapshot st w = Some msgs →
  trim (input st) ≠ "" →
  isLoading st = false →
  let request := spec_request (input st) msgs l in
  let settled := backend (sent w) request in
  ∃ st' w',
    handleSend trim backend l st w = (Normal st', w')
    ∧ snapshot st' w'
      = Some (msgs ++ exchange (input st, answer_of l settled))
    ∧ sent w' = sent w ++ [request]
    ∧ console w' = console w ++ log_of settled
    ∧ input st' = ""
    ∧ isLoading st' = false
    ∧ initialized st' = initialized st
    ∧ ∃ cells, heap w' = heap w ++ cells.
Proof.
  intros Hs Hb Hl. simpl. unfold handleSend.
  rewrite (bool_decide_eq_false_2 _ Hb), Hl.
  change (false || false) with false. cbv iota zeta.
  destruct (append_run_heap {| role := user; text := input st |} st w msgs Hs)
    as (w1 & Hrun1 & Hs1 & Hc1 & Hsent1 & cells1 & Hh1).
  rewrite bind_run, Hrun1, bind_run.
  assert (deref (heap w1) (messages st) = Some msgs) as Hd1
    by (rewrite Hh1; by apply deref_app).
  rewrite (askOpticsExpert_answer _ _ _ _ _ _ Hd1). rewrite Hsent1, Hc1.
  set (settled := backend (sent w) (spec_request (input st) msgs l)).
  set (w2 := {| heap := heap w1; console := console w ++ log_of settled;
                sent := sent w ++ [spec_request (input st) msgs l] |}).
  set (st1 := setMessages (S (length (heap w))) st) in *.
  assert (snapshot (setIsLoading true (setInput "" st1)) w2
          = Some (msgs ++ [ {| role := user; text := input st |} ])) as Hs2
    by done.
  destruct (append_run_heap {| role := model; text := answer_of l settled |}
              _ w2 _ Hs2)
    as (w3 & Hrun3 & Hs3 & Hc3 & Hsent3 & cells3 & Hh3).
  rewrite bind_run, Hrun3. eexists _, w3. split; [reflexivity|].
  split_and!; try done.
  - unfold snapshot in *. simpl in *. by rewrite <- app_assoc in Hs3.
  - exists (cells1 ++ cells3). rewrite Hh3. simpl. by rewrite Hh1, app_assoc.
Qed.

End SendProperties.



(** ** A whole session *)

Lemma conversation_snoc (base : list ChatMessage) (log : list Sent) (e : Sent) :
  conversation base (log ++ [e]) = conversation base log ++ sent_exchange e.
Proof.
  unfold conversation. rewrite flat_map_app. cbn [flat_map].
  by rewrite app_nil_r, app_assoc.
Qed.

Lemma conversation_cons (base : list ChatMessage) (e : Sent) (log : list Sent) :
  conversation base (e :: log) = conversation (base ++ sent_exchange e) log.
Proof. unfold conversation. cbn [flat_map]. by rewrite app_assoc. Qed.

Lemma requests_from_snoc (base : list ChatMessage) (log : list Sent) (e : Sent) :
  requests_from base (log ++ [e])
  = requests_from base log
    ++ [spec_request (sent_query e) (conversation base log) (sent_language e)].
Proof.
  revert base. induction log as [|e0 log IH]; intros base; simpl.
  - unfold conversation. simpl. by rewrite app_nil_r.
  - by rewrite IH, conversation_cons.
Qed.

Section SessionProperties.

Variable trim : string → string.
Variable backend : Backend.

Lemma mountAIChat_chatting l w :
  ∃ c w', mountAIChat l w = (Normal c, w')
          ∧ chatting trim (sent w) (isZh l) [] c w'
          ∧ language (props c) = l
          ∧ ∃ cells, heap w' = heap w ++ cells.
Proof.
  destruct (mountAIChat_run l w) as (c & w' & Hrun & Hl & Hi & Hs).
  exists c, w'. split; [done|].
  assert (isLoading (state c) = false ∧ sent w' = sent w
          ∧ ∃ cells, heap w' = heap w ++ cells) as (Hload & Hsent & Hheap).
  { revert Hrun.
    unfold mountAIChat, mount, welcomeEffect, reset, alloc, mbind, M_bind, mret, M_ret.
    simpl. intros [= <- <-]. simpl. split_and!; try done.
    rewrite <- !app_assoc. eauto. }
  split_and!; try done. unfold chatting, conversation. simpl.
  rewrite app_nil_r. by split_and!.
Qed.

Lemma step_chatting before isZh0 log ev c w :
  chatting trim before isZh0 log c w →
  ∃ c' w' log',
    step trim backend ev c w = (Normal c', w')
    ∧ chatting trim before isZh0 (log ++ log') c' w'
    ∧ ∃ cells, heap w' = heap w ++ cells.
Proof.
  intros (Hi & Hl & Hs & Hsent & Hall).
  destruct ev as [l | value |]; simpl.
  - exists {| props := {| language := l |}; state := state c |}, w, [].
    rewrite app_nil_r. split; [|split; [done | by exists []; rewrite app_nil_r]].
    rewrite bind_run. destruct (bool_decide _); [done|].
    by rewrite welcomeEffect_initialized.
  - exists {| props := props c; state := setInput value (state c) |}, w, [].
    rewrite app_nil_r. split; [done|].
    split; [done | by exists []; rewrite app_nil_r].
  - rewrite bind_run. destruct (decide (trim (input (state c)) = "")) as [Hb|Hb].
    + rewrite handleSend_ignored by auto.
      exists {| props := props c; state := state c |}, w, [].
      rewrite app_nil_r. split; [done|].
      split; [done | by exists []; rewrite app_nil_r].
    + destruct (handleSend_sends trim backend (language (props c)) _ _ _ Hs Hb Hl)
        as (st' & w' & Hrun & Hs' & Hsent' & _ & _ & Hl' & Hi' & Hheap).
      rewrite Hrun.
      set (answer := answer_of (language (props c))
                       (backend (sent w)
                          (spec_request (input (state c))
                             (conversation [welcomeMessage isZh0] log)
                             (language (props c))))) in *.
      exists {| props := props c; state := st' |}, w',
        [ {| sent_language := language (props c);
             sent_query := input (state c);
             sent_answer := answer |} ].
      split; [done|]. split; [|done].
      split_and!; simpl.
      * congruence.
      * done.
      * by rewrite conversation_snoc.
      * by rewrite Hsent', Hsent, requests_from_snoc, app_assoc.
      * apply Forall_app. split; [done|]. constructor; [|done]. simpl.
        split; [done | apply answer_of_nonempty].
Qed.

Lemma run_chatting before isZh0 log evs c w :
  chatting trim before isZh0 log c w →
  ∃ c' w' log',
    run trim backend evs c w = (Normal c', w')
    ∧ chatting trim before isZh0 (log ++ log') c' w'
    ∧ ∃ cells, heap w' = heap w ++ cells.
Proof.
  revert log c w. induction evs as [|ev evs IH]; intros log c w Hc.
  - exists c, w, []. rewrite app_nil_r. split; [done|].
    split; [done | by exists []; rewrite app_nil_r].
  - destruct (step_chatting before isZh0 log ev c w Hc)
      as (c1 & w1 & log1 & Hstep & Hc1 & cells1 & Hh1).
    destruct (IH _ c1 w1 Hc1) as (c' & w' & log' & Hrun & Hc' & cells' & Hh').
    exists c', w', (log1 ++ log'). simpl. rewrite bind_run, Hstep.
    split; [done|]. rewrite app_assoc. split; [done|].
    exists (cells1 ++ cells'). by rewrite Hh', Hh1, app_assoc.
Qed.

End SessionProperties.

Lemma welcomeText_nonempty (isZh0 : bool) : welcomeText isZh0 ≠ "".
Proof. by destruct isZh0. Qed.

(** X8. The store is append-only and its arrays are never written to: at any
    point of a session, the reference the component held for its messages still
    leads to the same messages however the session goes on, and the later
    store starts with them. *)
Theorem session_store_append_only
    (trim : string → string) (backend : Backend)
    (l0 : Language) (evs1 evs2 : list Event) (w : World) :
  ∃ c1 w1 c2 w2 msgs more,
    (mountAIChat l0 ≫= run trim backend evs1) w = (Normal c1, w1)
    ∧ run trim backend evs2 c1 w1 = (Normal c2, w2)
    ∧ snapshot (state c1) w1 = Some msgs
    ∧ deref (heap w2) (messages (state c1)) = Some msgs
    ∧ snapshot (state c2) w2 = Some (msgs ++ more).
Proof.
  destruct (mountAIChat_chatting trim l0 w) as (c0 & w0 & Hmount & Hc0 & _ & _).
  destruct (run_chatting trim backend _ _ _ evs1 c0 w0 Hc0)
    as (c1 & w1 & log1 & Hrun1 & Hc1 & _).
  destruct (run_chatting trim backend _ _ _ evs2 c1 w1 Hc1)
    as (c2 & w2 & log2 & Hrun2 & (_ & _ & Hs2 & _ & _) & cells & Hh).
  destruct Hc1 as (_ & _ & Hs1 & _ & _). simpl in Hs1.
  exists c1, w1, c2, w2, (conversation [welcomeMessage (isZh l0)] log1),
    (flat_map sent_exchange log2).
  rewrite bind_run, Hmount. split_and!; try done.
  - rewrite Hh. by apply deref_app.
  - rewrite Hs2. unfold conversation. by rewrite flat_map_app, app_assoc.
Qed.

(** ** Sessions with calls in flight *)

Lemma askOpticsExpert_begin_total query history language w :
  ∃ p w', askOpticsExpert_begin query history language w = (Normal p, w')
          ∧ heap w' = heap w
          ∧ pending_ok p.
Proof.
  rewrite askOpticsExpert_begin_run.
  destruct (deref (heap w) history) as [msgs|]; eexists _, _;
    (split; [reflexivity|]); split; try done.
  apply errorText_nonempty.
Qed.

Lemma askOpticsExpert_settle_total backend p w :
  pending_ok p →
  ∃ answer w', askOpticsExpert_settle backend p w = (Normal answer, w')
               ∧ answer ≠ ""
               ∧ heap w' = heap w
               ∧ sent w' = sent w.
Proof.
  intros Hp. destruct p as [earlier request language | answer]; simpl.
  - destruct (backend earlier request); eexists _, _;
      (split; [reflexivity|]); split_and!; try done.
    + apply or_else_nonempty, noAnswerText_nonempty.
    + apply errorText_nonempty.
  - by exists answer, w.
Qed.

Lemma count_role_snoc (r : Role) (msgs : list ChatMessage) (msg : ChatMessage) :
  count_role r (msgs ++ [msg])
  = count_role r msgs + count_role r [msg].
Proof.
  induction msgs as [|m msgs IH]; [done|]. simpl.
  destruct (role m), r; simpl in *; lia.
Qed.

Section FlightProperties.

Variable trim : string → string.
Variable backend : Backend.

Lemma handleSend_begin_ignored closure st w :
  trim (input (state closure)) = "" ∨ isLoading (state closure) = true →
  handleSend_begin trim closure st w = (Normal (st, None), w).
Proof.
  intros Hg. unfold handleSend_begin.
  assert (bool_decide (trim (input (state closure)) = "")
          || isLoading (state closure) = true) as ->; [|done].
  destruct Hg as [Hb | ->]; [|by rewrite orb_true_r].
  by rewrite (bool_decide_eq_true_2 _ Hb).
Qed.

(** A handler whose render saw a non-blank input and no call in flight: the
    user message goes onto the store as it is now, and the request carries the
    messages of the array that render held. *)
Lemma handleSend_begin_starts closure st w msgs old :
  snapshot st w = Some msgs →
  deref (heap w) (messages (state closure)) = Some old →
  trim (input (state closure)) ≠ "" →
  isLoading (state closure) = false →
  let request :=
    spec_request (input (state closure)) old (language (props closure)) in
  ∃ st' w',
    handleSend_begin trim closure st w
    = (Normal (st', Some (Awaiting (sent w) request (language (props closure)))), w')
    ∧ snapshot st' w'
      = Some (msgs ++ [ {| role := user; text := input (state closure) |} ])
    ∧ input st' = ""
    ∧ isLoading st' = true
    ∧ initialized st' = initialized st
    ∧ sent w' = sent w ++ [request]
    ∧ ∃ cells, heap w' = heap w ++ cells.
Proof.
  intros Hs Hold Hb Hl. simpl. unfold handleSend_begin.
  rewrite (bool_decide_eq_false_2 _ Hb), Hl.
  change (false || false) with false. cbv iota zeta.
  destruct (append_run_heap {| role := user; text := input (state closure) |}
              st w msgs Hs)
    as (w1 & Hrun1 & Hs1 & _ & Hsent1 & cells & Hheap).
  rewrite bind_run, Hrun1, bind_run, askOpticsExpert_begin_run.
  assert (deref (heap w1) (messages (state closure)) = Some old) as ->
    by (rewrite Hheap; by apply deref_app).
  rewrite ret_run, Hsent1. eexists _, _. split; [reflexivity|].
  split_and!; simpl; try done.
  - by rewrite Hsent1.
  - eauto.
Qed.

Lemma handleSend_resume_run p st w msgs :
  snapshot st w = Some msgs →
  pending_ok p →
  ∃ st' w' answer,
    handleSend_resume backend p st w = (Normal st', w')
    ∧ answer ≠ ""
    ∧ snapshot st' w' = Some (msgs ++ [ {| role := model; text := answer |} ])
    ∧ input st' = input st
    ∧ isLoading st' = false
    ∧ initialized st' = initialized st
    ∧ sent w' = sent w
    ∧ ∃ cells, heap w' = heap w ++ cells.
Proof.
  intros Hs Hp. unfold handleSend_resume.
  destruct (askOpticsExpert_settle_total backend p w Hp)
    as (answer & w1 & Hsettle & Hne & Hheap & Hsent).
  rewrite bind_run, Hsettle.
  assert (snapshot st w1 = Some msgs) as Hs1
    by (unfold snapshot in *; by rewrite Hheap).
  destruct (append_run_heap {| role := model; text := answer |} st w1 msgs Hs1)
    as (w2 & Hrun2 & Hs2 & _ & Hsent2 & cells & Hheap2).
  rewrite bind_run, Hrun2, ret_run. eexists _, w2, answer.
  split; [reflexivity|]. split_and!; try done; [congruence|].
  exists cells. by rewrite Hheap2, Hheap.
Qed.

Lemma mountAsync_run l w :
  ∃ st st' w',
    mountAsync l w
    = (Normal {| chat := {| props := {| language := l |}; state := st' |};
                 rendered := {| props := {| language := l |}; state := st |};
                 flights := [] |}, w')
    ∧ snapshot st' w' = Some [welcomeMessage (isZh l)]
    ∧ initialized st' = true
    ∧ isLoading st' = false
    ∧ deref (heap w') (messages st) = Some []
    ∧ sent w' = sent w.
Proof.
  eexists _, _, _. split.
  - unfold mountAsync, mount, welcomeEffect, reset, alloc, mbind, M_bind, mret, M_ret.
    simpl. reflexivity.
  - simpl. split_and!; try done.
    + unfold snapshot, deref, lookupArr. simpl.
      rewrite list_lookup_middle by done. simpl.
      unfold lookupObj.
      rewrite lookup_app_l by (rewrite !length_app; simpl; lia).
      by rewrite list_lookup_middle.
    + unfold deref, lookupArr. simpl.
      rewrite <- !app_assoc. simpl. by rewrite list_lookup_middle.
Qed.

Lemma settle_run p rest a w msgs :
  snapshot (state (chat a)) w = Some msgs →
  pending_ok p →
  ∃ st' w' answer,
    settle backend p rest a w
    = (Normal {| chat := {| props := props (chat a); state := st' |};
                 rendered := rendered a;
                 flights := rest |}, w')
    ∧ answer ≠ ""
    ∧ snapshot st' w' = Some (msgs ++ [ {| role := model; text := answer |} ])
    ∧ input st' = input (state (chat a))
    ∧ isLoading st' = false
    ∧ initialized st' = initialized (state (chat a))
    ∧ sent w' = sent w
    ∧ ∃ cells, heap w' = heap w ++ cells.
Proof.
  intros Hs Hp.
  destruct (handleSend_resume_run p _ _ _ Hs Hp)
    as (st' & w' & answer & Hrun & Hrest).
  exists st', w', answer. unfold settle. by rewrite bind_run, Hrun, ret_run.
Qed.

(** Language changes and typing on an initialized component. *)
Lemma step_language_initialized l c w :
  initialized (state c) = true →
  step trim backend (LanguageChanged l) c w
  = (Normal {| props := {| language := l |}; state := state c |}, w).
Proof.
  intros Hi. simpl. rewrite bind_run.
  destruct (bool_decide _); [done|]. by rewrite welcomeEffect_initialized.
Qed.

Lemma step_async_in_session isZh0 n0 ev a w :
  in_session trim isZh0 n0 a w →
  ∃ a' w',
    step_async trim backend ev a w = (Normal a', w')
    ∧ in_session trim isZh0 n0 a' w'.
Proof.
  intros (Hi & Hall & [old Hold] & tail & Hs & Hsound & Hcount & Hsent).
  destruct ev as [[l | value |] | | | i]; cbn [step_async].
  - rewrite bind_run, step_language_initialized, ret_run by done.
    eexists _, w. split; [reflexivity|]. unfold in_session. split_and!; simpl; eauto.
  - simpl. rewrite bind_run, !ret_run. eexists _, w. split; [reflexivity|]. unfold in_session.
    split_and!; simpl; eauto.
  - rewrite bind_run.
    destruct (decide (trim (input (state (rendered a))) = "")) as [Hb|Hb];
      [|destruct (isLoading (state (rendered a))) eqn:Hl].
    + rewrite handleSend_begin_ignored, ret_run by auto.
      eexists _, w. split; [reflexivity|]. unfold in_session. simpl. rewrite app_nil_r.
      split_and!; simpl; eauto.
    + rewrite handleSend_begin_ignored, ret_run by auto.
      eexists _, w. split; [reflexivity|]. unfold in_session. simpl. rewrite app_nil_r.
      split_and!; simpl; eauto.
    + destruct (handleSend_begin_starts (rendered a) _ _ _ _ Hs Hold Hb Hl)
        as (st' & w' & Hrun & Hs' & _ & _ & Hi' & Hsent' & cells & Hheap).
      rewrite Hrun, ret_run. eexists _, w'. split; [reflexivity|]. unfold in_session.
      split_and!; simpl.
      * congruence.
      * apply Forall_app. split; [done | by repeat constructor].
      * exists old. rewrite Hheap. by apply deref_app.
      * exists (tail ++ [ {| role := user; text := input (state (rendered a)) |} ]).
        split_and!.
        -- done.
        -- apply Forall_app. split; [done | by repeat constructor].
        -- rewrite !count_role_snoc, length_app. simpl. lia.
        -- rewrite Hsent', length_app, count_role_snoc. simpl. lia.
  - rewrite ret_run. eexists _, w. split; [reflexivity|]. unfold in_session.
    split_and!; simpl; eauto.
  - destruct (flights a) as [|p rest] eqn:Hfl.
    + rewrite ret_run. exists a, w. split; [done|]. unfold in_session.
      rewrite Hfl. split_and!; eauto 10.
    + inversion Hall as [|? ? Hp Hrest]; subst.
      destruct (settle_run p rest a w _ Hs Hp)
        as (st' & w' & answer & Hrun & Hne & Hs' & _ & _ & Hi' & Hsent' & cells & Hheap).
      rewrite Hrun. eexists _, w'. split; [reflexivity|]. unfold in_session.
      split_and!; simpl.
      * congruence.
      * done.
      * exists old. rewrite Hheap. by apply deref_app.
      * exists (tail ++ [ {| role := model; text := answer |} ]).
        split_and!.
        -- done.
        -- apply Forall_app. split; [done | by repeat constructor].
        -- rewrite !count_role_snoc. simpl in *. lia.
        -- rewrite Hsent', count_role_snoc. simpl. lia.
  - destruct (flights a !! S i) as [p|] eqn:Hp.
    + assert (pending_ok p) as Hok
        by (eapply Forall_lookup_1; [exact Hall | exact Hp]).
      destruct (settle_run p (delete (S i) (flights a)) a w _ Hs Hok)
        as (st' & w' & answer & Hrun & Hne & Hs' & _ & _ & Hi' & Hsent' & cells & Hheap).
      rewrite Hrun. eexists _, w'. split; [reflexivity|]. unfold in_session.
      assert (length (delete (S i) (flights a)) = length (flights a) - 1) as Hlen
        by (apply length_delete; eauto).
      assert (length (flights a) > 0) as Hpos
        by (apply lookup_lt_Some in Hp; lia).
      split_and!; simpl.
      * congruence.
      * by apply Forall_delete.
      * exists old. rewrite Hheap. by apply deref_app.
      * exists (tail ++ [ {| role := model; text := answer |} ]).
        split_and!.
        -- done.
        -- apply Forall_app. split; [done | by repeat constructor].
        -- rewrite !count_role_snoc. simpl. lia.
        -- rewrite Hsent', count_role_snoc. simpl. lia.
    + rewrite ret_run. exists a, w. split; [done|]. unfold in_session.
      split_and!; eauto 10.
Qed.

Lemma run_async_in_session isZh0 n0 evs a w :
  in_session trim isZh0 n0 a w →
  ∃ a' w',
    run_async trim backend evs a w = (Normal a', w')
    ∧ in_session trim isZh0 n0 a' w'.
Proof.
  revert a w. induction evs as [|ev evs IH]; intros a w Ha; [by exists a, w|].
  destruct (step_async_in_session _ _ ev a w Ha) as (a1 & w1 & Hstep & Ha1).
  destruct (IH a1 w1 Ha1) as (a' & w' & Hrun & Ha').
  exists a', w'. simpl. by rewrite bind_run, Hstep.
Qed.

Lemma mountAsync_in_session l w :
  ∃ a w', mountAsync l w = (Normal a, w')
          ∧ in_session trim (isZh l) (length (sent w)) a w'.
Proof.
  destruct (mountAsync_run l w) as (st & st' & w' & Hrun & Hs & Hi & Hl & Hd & Hsent).
  eexists _, w'. split; [exact Hrun|]. unfold in_session.
  split_and!; simpl; eauto. exists []. split_and!; simpl; try done.
  rewrite Hsent. lia.
Qed.

End FlightProperties.

(** X7. At any point of any session, with calls in flight and with clicks on
    handlers of an older render included: the store is the welcome message of
    the first language followed by messages of which no USER one is blank and
    no MODEL one is empty; every USER message has sent exactly one request, and
    has either its answer in the store or its call in flight. *)
Theorem session_store_accounting
    (trim : string → string) (backend : Backend)
    (l0 : Language) (evs : list AsyncEvent) (w : World) :
  ∃ a w' tail,
    (mountAsync l0 ≫= run_async trim backend evs) w = (Normal a, w')
    ∧ snapshot (state (chat a)) w' = Some (welcomeMessage (isZh l0) :: tail)
    ∧ (∀ msg, msg ∈ tail →
         match role msg with
         | user => trim (text msg) ≠ ""
         | model => text msg ≠ ""
         end)
    ∧ count_role user tail = count_role model tail + length (flights a)
    ∧ length (sent w') = length (sent w) + count_role user tail.
Proof.
  destruct (mountAsync_in_session trim l0 w) as (a0 & w0 & Hmount & Ha0).
  destruct (run_async_in_session trim backend _ _ evs a0 w0 Ha0)
    as (a & w' & Hrun & _ & _ & _ & tail & Hs & Hsound & Hcount & Hsent).
  exists a, w', tail. rewrite bind_run, Hmount. split_and!; try done.
  intros msg Hin. by apply (proj1 (Forall_forall _ _) Hsound).
Qed.

(** X10. While a call is in flight the user can go on typing: when the call
    settles, the store gains the answer (one non-empty MODEL message), the
    loading flag is cleared, no further request is sent, and what was typed in
    the meantime is still in the input box. *)
Theorem typed_input_survives_answer
    (trim : string → string) (backend : Backend)
    (l0 : Language) (evs : list AsyncEvent) (w : World) :
  ∃ a w',
    (mountAsync l0 ≫= run_async trim backend evs) w = (Normal a, w')
    ∧ ∀ p, flights a = [p] → ∀ value,
        ∃ a2 w2 msgs answer,
          run_async trim backend [UserEvent (InputChanged value); BackendSettled] a w'
          = (Normal a2, w2)
          ∧ snapshot (state (chat a)) w' = Some msgs
          ∧ snapshot (state (chat a2)) w2
            = Some (msgs ++ [ {| role := model; text := answer |} ])
          ∧ answer ≠ ""
          ∧ input (state (chat a2)) = value
          ∧ isLoading (state (chat a2)) = false
          ∧ flights a2 = []
          ∧ sent w2 = sent w'.
Proof.
  destruct (mountAsync_in_session trim l0 w) as (a0 & w0 & Hmount & Ha0).
  destruct (run_async_in_session trim backend _ _ evs a0 w0 Ha0)
    as (a & w' & Hrun & _ & Hall & _ & tail & Hs & _).
  exists a, w'. rewrite bind_run, Hmount. split; [done|].
  intros p Hp value. rewrite Hp in Hall. inversion Hall as [|? ? Hok _]; subst.
  set (a1 := {| chat := {| props := props (chat a);
                           state := setInput value (state (chat a)) |};
                rendered := rendered a; flights := flights a |}).
  assert (snapshot (state (chat a1)) w' = Some (welcomeMessage (isZh l0) :: tail))
    as Hs1 by done.
  destruct (settle_run backend p [] a1 w' _ Hs1 Hok)
    as (st' & w2 & answer & Hsettle & Hne & Hs2 & Hin & Hl & _ & Hsent & _).
  eexists _, w2, _, answer. split.
  - cbn [run_async step_async step]. rewrite !bind_run, !ret_run. cbn [fst snd].
    fold a1. change (flights a1) with (flights a). rewrite Hp.
    rewrite bind_run, Hsettle, ret_run. reflexivity.
  - by split_and!.
Qed.

(** ** Sessions that re-render after every event *)

Lemma run_async_app trim backend (evs1 evs2 : list AsyncEvent) a w :
  run_async trim backend (evs1 ++ evs2) a w
  = (run_async trim backend evs1 a ≫= run_async trim backend evs2) w.
Proof.
  revert a w. induction evs1 as [|ev evs1 IH]; intros a w; [done|].
  cbn [app run_async]. rewrite !bind_run.
  destruct (step_async trim backend ev a w) as [[a1|e] w1]; [|done].
  by rewrite IH, bind_run.
Qed.

Section RenderedProperties.

Variable trim : string → string.
Variable backend : Backend.

(** A click on send in a component whose handlers are current. *)
Lemma send_one_flight a w msgs :
  one_flight a w →
  snapshot (state (chat a)) w = Some msgs →
  ∃ a2 w2,
    step_async trim backend (UserEvent SendClicked) a w = (Normal a2, w2)
    ∧ initialized (state (chat a2)) = true
    ∧ rendered a2 = rendered a
    ∧ props (chat a2) = props (chat a)
    ∧ Forall pending_ok (flights a2)
    ∧ (∃ msgs2, snapshot (state (chat a2)) w2 = Some msgs2)
    ∧ ((flights a2 = [] ∧ isLoading (state (chat a2)) = false)
       ∨ (∃ p, flights a2 = [p] ∧ isLoading (state (chat a2)) = true))
    ∧ if bool_decide (trim (input (state (chat a))) = "")
         || isLoading (state (chat a))
      then a2 = a ∧ w2 = w
      else
        let request :=
          spec_request (input (state (chat a))) msgs (language (props (chat a))) in
        sent w2 = sent w ++ [request]
        ∧ snapshot (state (chat a2)) w2
          = Some (msgs ++ [ {| role := user; text := input (state (chat a)) |} ])
        ∧ flights a2 = [Awaiting (sent w) request (language (props (chat a)))]
        ∧ input (state (chat a2)) = ""
        ∧ isLoading (state (chat a2)) = true.
Proof.
  intros (Hi & Hr & _ & Hall & Hfl) Hs. cbn [step_async]. rewrite bind_run, Hr.
  destruct (decide (trim (input (state (chat a))) = "")) as [Hb|Hb];
    [|destruct (isLoading (state (chat a))) eqn:Hl].
  - rewrite handleSend_begin_ignored, ret_run by auto.
    rewrite (bool_decide_eq_true_2 _ Hb). cbn [orb fst snd option_list].
    rewrite app_nil_r.
    assert ({| chat := {| props := props (chat a); state := state (chat a) |};
               rendered := chat a; flights := flights a |} = a) as ->
      by (destruct a as [[pr st] rd fl]; simpl in *; by rewrite Hr).
    exists a, w. split_and!; eauto.
  - rewrite handleSend_begin_ignored, ret_run by auto.
    rewrite orb_true_r. cbn [fst snd option_list]. rewrite app_nil_r.
    assert ({| chat := {| props := props (chat a); state := state (chat a) |};
               rendered := chat a; flights := flights a |} = a) as ->
      by (destruct a as [[pr st] rd fl]; simpl in *; by rewrite Hr).
    exists a, w. rewrite ?Hl. split_and!; eauto.
  - destruct Hfl as [[Hnil _] | (p & _ & ?)]; [|done].
    destruct (handleSend_begin_starts trim (chat a) _ _ _ _ Hs Hs Hb Hl)
      as (st' & w' & Hrun & Hs' & Hin & Hl' & Hi' & Hsent' & _).
    rewrite Hrun, ret_run. rewrite (bool_decide_eq_false_2 _ Hb).
    cbn [orb fst snd option_list]. rewrite Hnil. cbn [app].
    eexists _, w'. split; [reflexivity|]. cbn [chat rendered flights state props].
    split_and!; eauto; try congruence.
    + by repeat constructor.
Qed.

Lemma step_rendered_one_flight ev a w :
  one_flight a w →
  ∃ a' w',
    run_async trim backend [ev; Rendered] a w = (Normal a', w')
    ∧ one_flight a' w'
    ∧ language (props (chat a')) = last_language (language (props (chat a))) [ev].
Proof.
  intros Ha. pose proof Ha as (Hi & Hr & [msgs Hs] & Hall & Hfl).
  destruct ev as [[l | value |] | | | i]; cbn [run_async last_language].
  - cbn [step_async]. rewrite !bind_run, step_language_initialized by done.
    rewrite !ret_run. cbn [step_async]. rewrite bind_run, !ret_run.
    eexists _, w. split; [reflexivity|]. split; [|done].
    unfold one_flight. split_and!; eauto.
  - cbn [step_async step]. rewrite !bind_run, !ret_run. cbn [step_async].
    rewrite bind_run, !ret_run.
    eexists _, w. split; [reflexivity|]. split; [|done].
    unfold one_flight. split_and!; eauto.
  - destruct (send_one_flight a w msgs Ha Hs)
      as (a2 & w2 & Hstep & Hi2 & _ & Hp2 & Hall2 & Hs2 & Hfl2 & _).
    rewrite bind_run, Hstep. cbn [step_async]. rewrite bind_run, !ret_run.
    eexists _, w2. split; [reflexivity|]. split; [|cbn [chat]; by rewrite Hp2].
    unfold one_flight. split_and!; eauto.
  - cbn [step_async]. rewrite !bind_run, !ret_run.
    eexists _, w. split; [reflexivity|]. split; [|done].
    unfold one_flight. split_and!; eauto.
  - cbn [step_async].
    destruct Hfl as [[Hnil Hl] | (p & Hp & Hl)].
    + rewrite Hnil, bind_run, ret_run. cbn [step_async]. rewrite bind_run, !ret_run.
      eexists _, w. split; [reflexivity|]. split; [|done].
      unfold one_flight. split_and!; eauto.
    + rewrite Hp. rewrite Hp in Hall. inversion Hall as [|? ? Hok _]; subst.
      destruct (settle_run backend p [] a w _ Hs Hok)
        as (st' & w' & answer & Hrun & _ & Hs' & _ & Hl' & Hi' & _).
      rewrite bind_run, Hrun. cbn [step_async]. rewrite bind_run, !ret_run.
      eexists _, w'. split; [reflexivity|]. split; [|done].
      unfold one_flight. split_and!; eauto; congruence.
  - cbn [step_async].
    assert (flights a !! S i = None) as ->
      by (destruct Hfl as [[-> _] | (p & -> & _)]; done).
    rewrite bind_run, ret_run. cbn [step_async]. rewrite bind_run, !ret_run.
    eexists _, w. split; [reflexivity|]. split; [|done].
    unfold one_flight. split_and!; eauto.
Qed.

Lemma last_language_app l0 (evs1 evs2 : list AsyncEvent) :
  last_language l0 (evs1 ++ evs2) = last_language (last_language l0 evs1) evs2.
Proof.
  revert l0. induction evs1 as [|[[l | value |] | | | i] evs1 IH]; intros l0;
    simpl; auto.
Qed.

Lemma run_rendered_one_flight evs a w :
  one_flight a w →
  ∃ a' w',
    run_async trim backend (flat_map (λ ev, [ev; Rendered]) evs) a w = (Normal a', w')
    ∧ one_flight a' w'
    ∧ language (props (chat a')) = last_language (language (props (chat a))) evs.
Proof.
  revert a w. induction evs as [|ev evs IH]; intros a w Ha; [by exists a, w|].
  destruct (step_rendered_one_flight ev a w Ha) as (a1 & w1 & Hstep & Ha1 & Hl1).
  destruct (IH a1 w1 Ha1) as (a' & w' & Hrun & Ha' & Hl').
  exists a', w'. cbn [flat_map].
  rewrite run_async_app, bind_run, Hstep. split_and!; try done.
  rewrite Hl', Hl1. change (ev :: evs) with ([ev] ++ evs).
  by rewrite last_language_app.
Qed.

Lemma mount_rendered_one_flight l0 evs w :
  ∃ a w',
    (mountAsync l0 ≫= run_async trim backend (rendering_after_each evs)) w
    = (Normal a, w')
    ∧ one_flight a w'
    ∧ language (props (chat a)) = last_language l0 evs.
Proof.
  destruct (mountAsync_run l0 w) as (st & st' & w0 & Hmount & Hs & Hi & Hl & _ & _).
  set (a0 := {| chat := {| props := {| language := l0 |}; state := st' |};
                rendered := {| props := {| language := l0 |}; state := st' |};
                flights := [] |}).
  assert (one_flight a0 w0) as Ha0 by (unfold one_flight; split_and!; simpl; eauto).
  destruct (run_rendered_one_flight evs a0 w0 Ha0) as (a & w' & Hrun & Ha & Hlang).
  exists a, w'. rewrite bind_run, Hmount. unfold rendering_after_each.
  cbn [run_async step_async]. rewrite bind_run, ret_run. cbn [chat flights].
  fold a0. by rewrite Hrun.
Qed.

End RenderedProperties.

(** X9. In a session where the component re-renders after the mount and after
    every event, it waits for at most one call at any time, the loading flag is
    set exactly while it does, and a click on send during that time changes
    nothing: no request, no message, the same hooks. *)
Theorem at_most_one_call_in_flight
    (trim : string → string) (backend : Backend)
    (l0 : Language) (evs : list AsyncEvent) (w : World) :
  ∃ a w',
    (mountAsync l0 ≫= run_async trim backend (rendering_after_each evs)) w
    = (Normal a, w')
    ∧ length (flights a) ≤ 1
    ∧ (isLoading (state (chat a)) = true ↔ flights a ≠ [])
    ∧ (flights a ≠ [] →
       step_async trim backend (UserEvent SendClicked) a w' = (Normal a, w')).
Proof.
  destruct (mount_rendered_one_flight trim backend l0 evs w)
    as (a & w' & Hrun & Ha & _).
  exists a, w'. split; [done|].
  pose proof Ha as (_ & _ & [msgs Hs] & _ & Hfl).
  destruct (send_one_flight trim backend a w' msgs Ha Hs)
    as (a2 & w2 & Hstep & _ & _ & _ & _ & _ & _ & Hcase).
  destruct Hfl as [[Hnil Hl] | (p & Hp & Hl)].
  - rewrite Hnil, Hl. simpl. split_and!; [lia | done | done].
  - rewrite Hp, Hl. simpl. split_and!; [lia | done |]. intros _.
    rewrite Hl, orb_true_r in Hcase. destruct Hcase as [-> ->]. done.
Qed.

(** X6. In a session where the component re-renders after the mount and after
    every event, a click on send at any point either does nothing (blank
    input, or a call in flight) or sends exactly one request: the whole store
    as it is, in order, followed by the input as typed, under the language the
    page has at that moment. *)
Theorem session_requests_carry_whole_store
    (trim : string → string) (backend : Backend)
    (l0 : Language) (evs : list AsyncEvent) (w : World) :
  ∃ a w' msgs a2 w2,
    (mountAsync l0 ≫= run_async trim backend (rendering_after_each evs)) w
    = (Normal a, w')
    ∧ snapshot (state (chat a)) w' = Some msgs
    ∧ language (props (chat a)) = last_language l0 evs
    ∧ step_async trim backend (UserEvent SendClicked) a w' = (Normal a2, w2)
    ∧ if bool_decide (trim (input (state (chat a))) = "")
         || isLoading (state (chat a))
      then a2 = a ∧ w2 = w'
      else
        let request :=
          spec_request (input (state (chat a))) msgs (last_language l0 evs) in
        sent w2 = sent w' ++ [request]
        ∧ request_contents request
          = map toContent msgs ++ [queryContent (input (state (chat a)))]
        ∧ snapshot (state (chat a2)) w2
          = Some (msgs ++ [ {| role := user; text := input (state (chat a)) |} ])
        ∧ flights a2 = [Awaiting (sent w') request (last_language l0 evs)].
Proof.
  destruct (mount_rendered_one_flight trim backend l0 evs w)
    as (a & w' & Hrun & Ha & Hlang).
  pose proof Ha as (_ & _ & [msgs Hs] & _ & _).
  destruct (send_one_flight trim backend a w' msgs Ha Hs)
    as (a2 & w2 & Hstep & _ & _ & _ & _ & _ & _ & Hcase).
  exists a, w', msgs, a2, w2. split_and!; try done.
  destruct (bool_decide (trim (input (state (chat a))) = "")
            || isLoading (state (chat a))); [done|].
  rewrite <- Hlang. cbv zeta in *. destruct Hcase as (? & ? & ? & _).
  by split_and!.
Qed.

(** A session that re-renders after every event: a question, a second click
    while the call is in flight, more typing, then the answer. *)
Example session_with_a_call_in_flight :
  match (mountAsync en ≫=
           run_async id (fixedBackend "A")
             (rendering_after_each
                [ UserEvent (InputChanged "q1"); UserEvent SendClicked;
                  UserEvent SendClicked; UserEvent (InputChanged "next") ]))
          emptyWorld with
  | (Normal a, w) =>
      (length (flights a), isLoading (state (chat a)), length (sent w),
       match run_async id (fixedBackend "A") [ BackendSettled ] a w with
       | (Normal a2, w2) =>
           (input (state (chat a2)), isLoading (state (chat a2)),
            length (flights a2), length (sent w2), snapshot (state (chat a2)) w2)
       | (Throw _, _) => ("", true, 0, 0, None)
       end)
  | (Throw _, _) => (0, false, 0, ("", true, 0, 0, None))
  end
  = (1, true, 1,
     ("next", false, 0, 1,
      Some [ welcomeMessage false;
             {| role := user; text := "q1" |};
             {| role := model; text := "A" |} ])).
Proof. vm_compute. reflexivity. Qed.

(** Without a render in between, a second click runs the same handler again:
    it still sees the old input and no call in flight, so two calls start, and
    both requests carry the store of that render. *)
Example two_clicks_on_one_render :
  match (mountAsync en ≫=
           run_async id (fixedBackend "A")
             [ Rendered; UserEvent (InputChanged "q1"); Rendered;
               UserEvent SendClicked; UserEvent SendClicked ])
          emptyWorld with
  | (Normal a, w) =>
      (length (flights a), map request_contents (sent w),
       snapshot (state (chat a)) w)
  | (Throw _, _) => (0, [], None)
  end
  = (2,
     [ [ toContent (welcomeMessage false); queryContent "q1" ];
       [ toContent (welcomeMessage false); queryContent "q1" ] ],
     Some [ welcomeMessage false;
            {| role := user; text := "q1" |};
            {| role := user; text := "q1" |} ]).
Proof. vm_compute. reflexivity. Qed.

(** ** The page *)

Lemma toggleLanguage_involutive (l : Language) :
  toggleLanguage (toggleLanguage l) = l.
Proof. by destruct l. Qed.

Section PageProperties.

Variable trim : string → string.
Variable backend : Backend.

Lemma step_language ev c w c' w' :
  step trim backend ev c w = (Normal c', w') →
  language (props c')
  = match ev with
    | LanguageChanged l => l
    | _ => language (props c)
    end.
Proof.
  destruct ev as [l | value |]; simpl; rewrite ?bind_run.
  - destruct ((if bool_decide (isZh l = isZh (language (props c)))
               then mret (state c) else welcomeEffect (isZh l) (state c)) w)
      as [[st|e] w1]; [|done].
    by intros [= <- <-].
  - by intros [= <- <-].
  - destruct (handleSend trim backend (language (props c)) (state c) w)
      as [[st|e] w1]; [|done].
    by intros [= <- <-].
Qed.

Lemma stepApp_invariant ev a w :
  language (props (app_chat a)) = app_language a →
  seeded true (app_chat a) w →
  ∃ a' w',
    stepApp trim backend ev a w = (Normal a', w')
    ∧ language (props (app_chat a')) = app_language a'
    ∧ seeded true (app_chat a') w'
    ∧ app_language a'
      = match ev with
        | LanguageClicked => toggleLanguage (app_language a)
        | _ => app_language a
        end.
Proof.
  intros Hl Hseeded. destruct ev as [| newMode | [value|]]; cbn [stepApp].
  - destruct (step_seeded trim backend true
                (LanguageChanged (toggleLanguage (app_language a))) _ _ Hseeded)
      as (c' & w' & Hstep & Hc').
    rewrite bind_run, Hstep, ret_run. eexists _, w'. split; [reflexivity|].
    simpl. split_and!; try done. by rewrite (step_language _ _ _ _ _ Hstep).
  - eexists _, w. split; [reflexivity|]. by split_and!.
  - destruct (step_seeded trim backend true (InputChanged value) _ _ Hseeded)
      as (c' & w' & Hstep & Hc').
    rewrite bind_run, Hstep, ret_run. eexists _, w'. split; [reflexivity|].
    simpl. split_and!; try done. by rewrite (step_language _ _ _ _ _ Hstep).
  - destruct (step_seeded trim backend true SendClicked _ _ Hseeded)
      as (c' & w' & Hstep & Hc').
    rewrite bind_run, Hstep, ret_run. eexists _, w'. split; [reflexivity|].
    simpl. split_and!; try done. by rewrite (step_language _ _ _ _ _ Hstep).
Qed.

Lemma runApp_invariant evs a w :
  language (props (app_chat a)) = app_language a →
  seeded true (app_chat a) w →
  ∃ a' w',
    runApp trim backend evs a w = (Normal a', w')
    ∧ language (props (app_chat a')) = app_language a'
    ∧ seeded true (app_chat a') w'
    ∧ app_language a'
      = (if Nat.even (language_clicks evs) then app_language a
         else toggleLanguage (app_language a)).
Proof.
  revert a w. induction evs as [|ev evs IH]; intros a w Hl Hseeded.
  - by exists a, w.
  - destruct (stepApp_invariant ev a w Hl Hseeded)
      as (a1 & w1 & Hstep & Hl1 & Hs1 & Hlang1).
    destruct (IH a1 w1 Hl1 Hs1) as (a' & w' & Hrun & Hl' & Hs' & Hlang').
    exists a', w'. cbn [runApp]. rewrite bind_run, Hstep.
    split_and!; try done. rewrite Hlang', Hlang1.
    destruct ev as [| newMode | value]; cbn [language_clicks]; try done.
    rewrite Nat.even_succ, <- Nat.negb_even, toggleLanguage_involutive.
    by destruct (Nat.even (language_clicks evs)).
Qed.

End PageProperties.

(** X11. The page starts in Chinese and hands its language to the chat. After
    any clicks, typing and sends, the chat's [language] is the page's, the
    page is in Chinese exactly after an even number of clicks on the language
    button, and the first message of the store is still the Chinese welcome
    message, also while the page is in English. *)
Theorem page_language_and_welcome
    (trim : string → string) (backend : Backend)
    (evs : list AppEvent) (w : World) :
  ∃ a w' tail,
    (mountApp ≫= runApp trim backend evs) w = (Normal a, w')
    ∧ language (props (app_chat a)) = app_language a
    ∧ app_language a = (if Nat.even (language_clicks evs) then zh else en)
    ∧ snapshot (state (app_chat a)) w' = Some (welcomeMessage true :: tail)
    ∧ welcomeMessage true
      = {| role := model;
           text := "你好！我是你的光学助教。关于打光角度、明暗视野或检测难题，尽管问我。" |}.
Proof.
  destruct (mountAIChat_run zh w) as (c0 & w0 & Hmount & Hl0 & Hi0 & Hs0).
  assert (seeded true c0 w0) as Hseeded0 by (split; [done | by exists []]).
  destruct (runApp_invariant trim backend evs
              {| app_mode := BRIGHT_FIELD; app_language := zh; app_chat := c0 |}
              w0 Hl0 Hseeded0)
    as (a & w' & Hrun & Hl & (_ & exchanges & Hs) & Hlang).
  exists a, w', (flat_map exchange exchanges). unfold mountApp.
  rewrite !bind_run, Hmount, ret_run. by split_and!.
Qed.
